(** * caco-alch: ingredient registry, potion aggregation and effect filtering

    A shallow embedding of the parts of [IngredientCache.hpp], [Potion.hpp]
    and [Format.hpp] that carry the registry, the effect-merge reduction and
    the search / filter predicates, followed by the properties established
    about them.

    Conventions of the embedding
    - [std::string] is [string]; [operator==] is [String.eqb] and
      [operator<] is the byte-wise lexicographic [String.ltb].
    - [double] magnitudes are rationals ([Q]): every finite double is a
      dyadic rational and the code only copies and compares magnitudes (the
      one computation on them is the injected settings function).
    - [unsigned] durations are [N]; the code only copies and compares them.
    - A container iterator is the index of the element it points to; the
      [end()] iterator of a container [c] is [length c].
    - A thrown [std::exception] is the [Throw] constructor of [except]. *)

From Stdlib Require Import String Ascii.
From Stdlib Require Import List Bool Arith NArith ZArith QArith Lia.
From Stdlib Require Import Sorted Permutation.
Import ListNotations.
Local Close Scope Q_scope.
Local Open Scope nat_scope.

(* ================================================================= *)
(** ** Strings *)

Module str.

(** [std::tolower] in the "C" locale: the 26 upper-case ASCII letters are
    moved down, every other byte is left alone. *)
Definition tolower_char (c : ascii) : ascii :=
  let n := nat_of_ascii c in
  if (65 <=? n) && (n <=? 90) then ascii_of_nat (n + 32) else c.

(** [str::tolower(std::string)]: the string with every character lowered. *)
Fixpoint tolower (s : string) : string :=
  match s with
  | EmptyString => EmptyString
  | String c s' => String (tolower_char c) (tolower s')
  end.

End str.

(** [std::string::find(pat)]: the first position at which [pat] occurs in
    [s]; [None] stands for [std::string::npos]. *)
Fixpoint string_find (s pat : string) : option nat :=
  if String.prefix pat s then Some 0
  else match s with
       | EmptyString => None
       | String _ s' => option_map S (string_find s' pat)
       end.

(** [pos < s.size()] for a position returned by [find]: [npos] is the largest
    [size_t], so it is below no size. *)
Definition pos_lt (pos : option nat) (size : nat) : bool :=
  match pos with
  | Some p => p <? size
  | None => false
  end.

(** Comparison of magnitudes, [a < b] on doubles. *)
Definition Qltb (a b : Q) : bool := negb (Qle_bool b a).

(* ================================================================= *)
(** ** Data model *)

(** [ObjectBase]: the named base of every record. *)
Record ObjectBase := mkObject { _name : string }.

Record Keyword := mkKeyword { Keyword_base :> ObjectBase }.

Definition KeywordList := list Keyword.

(** Modelled from the spec: the [Effect] and [Ingredient] records are declared
    in [Ingredient.hpp], which is not among the sources; their fields are the
    ones the sources read ([_name], [_magnitude], [_duration], [_keywords],
    [_effects]).  The effect slots of an ingredient, a [std::array<Effect, 4>],
    are a list, walked front to back. *)
Record Effect := mkEffect {
  Effect_base :> ObjectBase;
  _magnitude : Q;
  _duration : N;
  _keywords : KeywordList
}.

(** Modelled from the spec: the constructor [Effect{ name, magnitude, duration }]
    is declared in [Ingredient.hpp], which is not among the sources.  It
    stores the three values it is given; it is given no keywords, and the
    model lets it store none.  Where a property must not depend on that
    choice the constructor is a parameter, see [calculate_stats_with]. *)
Definition Effect3 (name : string) (magnitude : Q) (duration : N) : Effect :=
  mkEffect (mkObject name) magnitude duration [].

Definition EffectList := list Effect.

Record Ingredient := mkIngredient {
  Ingredient_base :> ObjectBase;
  _effects : list Effect
}.

Definition IngrList := list Ingredient.

(** [GameSettings]: the settings provider, of which the aggregator uses
    [calculate_magnitude] only. *)
Record GameSettings := mkGameSettings { calculate_magnitude : Q -> Q }.

(** Outcome of a call that may throw. *)
Inductive except (A : Type) : Type :=
| Return (a : A)
| Throw (what : string).
Arguments Return {A} a.
Arguments Throw {A} what.

(** Sequencing of calls that may throw: the first exception ends the
    evaluation. *)
Definition bind {A B : Type} (m : except A) (k : A -> except B) : except B :=
  match m with
  | Return a => k a
  | Throw what => Throw what
  end.

(** [std::string::substr(pos, count)]: the characters from [pos] on, at most
    [count] of them, all of them when [count] is left out ([None]); it throws
    [std::out_of_range] when [pos] is past the end. *)
Definition substr (s : string) (pos : nat) (count : option nat)
  : except string :=
  if String.length s <? pos then Throw "out_of_range"
  else Return (String.substring pos
                 (match count with
                  | Some n => n
                  | None => String.length s - pos
                  end) s).

(* ================================================================= *)
(** ** Potion.hpp *)

(** The [is_duplicate] lambda: iterator to the first entry of [target] with
    the name of [fx], [None] for [target.end()]. *)
Fixpoint is_duplicate (target : EffectList) (fx : Effect) : option nat :=
  match target with
  | [] => None
  | e :: rest =>
      if String.eqb (_name e) (_name fx) then Some 0
      else option_map S (is_duplicate rest fx)
  end.

(** Assignment through an iterator: [( *it ) = f( *it )]. *)
Fixpoint assign_at (target : EffectList) (it : nat) (f : Effect -> Effect)
  : EffectList :=
  match target, it with
  | [], _ => []
  | e :: rest, 0 => f e :: rest
  | e :: rest, S it' => e :: assign_at rest it' f
  end.

Definition set_magnitude (m : Q) (e : Effect) : Effect :=
  mkEffect (Effect_base e) m (_duration e) (_keywords e).

Definition set_duration (d : N) (e : Effect) : Effect :=
  mkEffect (Effect_base e) (_magnitude e) d (_keywords e).

(** The two statements of the [else] branch at lines 36-39: raise the stored
    magnitude, then the stored duration, to those of [it] when larger. *)
Definition raise_to (it : Effect) (current : Effect) : Effect :=
  let c1 := if Qltb (_magnitude current) (_magnitude it)
            then set_magnitude (_magnitude it) current else current in
  if (_duration c1 <? _duration it)%N
  then set_duration (_duration it) c1 else c1.

(** Body of the inner loop of [get_common_effects], on the pair of buffers
    [(common, tmp)]. *)
Definition merge_effect (st : EffectList * EffectList) (it : Effect)
  : EffectList * EffectList :=
  let '(common, tmp) := st in
  match is_duplicate tmp it with
  | Some d =>
      let dupl := nth d tmp it in
      match is_duplicate common it with
      | None =>
          if Qltb (_magnitude it) (_magnitude dupl)
          then (common ++ [dupl], tmp)
          else (common ++ [it], tmp)
      | Some current => (assign_at common current (raise_to it), tmp)
      end
  | None => (common, tmp ++ [it])
  end.

(** The nested loops: every effect of every ingredient, in input order. *)
Definition merge_ingredients (ingr : list Ingredient)
  : EffectList * EffectList :=
  fold_left (fun st i => fold_left merge_effect (_effects i) st) ingr ([], []).

Definition get_common_effects (ingr : list Ingredient) : except EffectList :=
  if 4 <? length ingr then Throw "Too many ingredients! (Max 4)"
  else if length ingr <? 2 then Throw "Not enough ingredients! (Min 2)"
  else Return (fst (merge_ingredients ingr)).

Record PotionBase := mkPotionBase {
  PotionBase_base :> ObjectBase;
  _base_fx : EffectList
}.

Record Potion := mkPotion {
  Potion_base :> PotionBase;
  _fx : EffectList
}.

(** [Potion::calculate_stats]. *)
Definition calculate_stats (base : EffectList) (gs : GameSettings)
  : EffectList :=
  fold_left
    (fun (vec : EffectList) (it : Effect) =>
       let magnitude := calculate_magnitude gs (_magnitude it) in
       let duration := _duration it in
       vec ++ [Effect3 (_name it) magnitude duration])
    base [].


(** [Potion(name, ingredients, gs)]: the base constructor derives the shared
    effects (and lets its exception through), then the final effects are
    computed from them. *)
Definition Potion_new (name : string) (ingredients : list Ingredient)
  (gs : GameSettings) : except Potion :=
  match get_common_effects ingredients with
  | Throw what => Throw what
  | Return base =>
      Return (mkPotion (mkPotionBase (mkObject name) base)
                       (calculate_stats base gs))
  end.

(** [Potion(ingredients, gs)]: the unnamed potion is labelled "Potion". *)
Definition Potion_default (ingredients : list Ingredient) (gs : GameSettings)
  : except Potion :=
  Potion_new "Potion" ingredients gs.

(* ================================================================= *)
(** ** IngredientCache.hpp *)

Module _internal.

(** Modelled from the spec: the comparator [_internal::less<Ingredient>] is
    declared in [using.h], which is not among the sources; the registry
    orders ingredients by name, case-sensitively and lexicographically. *)
Definition less (a b : Ingredient) : bool :=
  String.ltb (_name a) (_name b).

End _internal.

(** [std::set<Ingredient, _internal::less<Ingredient>>]: the elements in
    iteration order, strictly increasing for the comparator. *)
Definition Container := list Ingredient.

(** [std::set::insert]: the container afterwards, the iterator to the new or
    to the blocking element, and whether the insertion took place.  Two keys
    are equivalent when neither is less than the other. *)
Fixpoint set_insert (s : Container) (x : Ingredient)
  : Container * (nat * bool) :=
  match s with
  | [] => ([x], (0, true))
  | y :: s' =>
      if _internal.less x y then (x :: y :: s', (0, true))
      else if _internal.less y x then
        let '(s'', (pos, state)) := set_insert s' x in
        (y :: s'', (S pos, state))
      else (y :: s', (0, false))
  end.

(** [++count] on an [unsigned]. *)
Definition incr_unsigned (count : N) : N := ((count + 1) mod 2 ^ 32)%N.

Module IngredientCache.

(** Body of the loop of [sort]. *)
Definition sort_step (st : Container * N) (it : Ingredient) : Container * N :=
  let '(list, count) := st in
  let '(list', (existing, state)) := set_insert list it in
  if negb state then (list', incr_unsigned count) else (list', count).

(** [IngredientCache::sort]. *)
Definition sort (ingr_cont : IngrList) : Container * N :=
  fold_left sort_step ingr_cont ([], 0%N).

(** [std::find_if] from the iterator [first] to the end of the container,
    the walk being over the elements [rest] that start at [first]. *)
Fixpoint find_if_loop {A : Type} (p : A -> bool) (rest : list A) (first : nat)
  : nat :=
  match rest with
  | [] => first
  | x :: rest' => if p x then first else find_if_loop p rest' (S first)
  end.

Definition find_if {A : Type} (c : list A) (first : nat) (p : A -> bool)
  : nat :=
  find_if_loop p (skipn first c) first.

(** [IngredientCache::get].  The predicate [pred] it applies to effect names
    is not declared in the sources and is taken as a parameter. *)
Definition get (pred : string -> string -> bool) (_ingr : Container)
  (name : string) (off : nat) (only_effects : bool) : nat :=
  find_if _ingr off
    (fun i : Ingredient =>
       if only_effects
       then existsb (fun fx : Effect => pred (str.tolower (_name fx)) name) (_effects i)
       else String.eqb (_name i) name).

(** [IngredientCache(IngrList&&)]: the live cache is the sorted container,
    the duplicate count is dropped. *)
Definition from_list (ingr_cont : IngrList) : Container :=
  fst (sort ingr_cont).

(** [IngredientCache::getList]. *)
Definition getList (_ingr : Container) : IngrList :=
  fold_left (fun (vec : IngrList) (it : Ingredient) => vec ++ [it]) _ingr [].

(** [IngredientCache::empty]. *)
Definition empty (_ingr : Container) : bool :=
  match _ingr with
  | [] => true
  | _ :: _ => false
  end.

End IngredientCache.

Module RegistryType.

Inductive FindType := BOTH | INGR | EFFECT.

(** [lc.find(name) < lc.size()]. *)
Definition found_in (lc name : string) : bool :=
  pos_lt (string_find lc name) (String.length lc).

(** The loop over the effects of the entry at [it]: [None] when the loop
    returns [it] from [find_best_fit], otherwise the vector afterwards. *)
Fixpoint scan_effects (name : string) (it : nat) (fxs : list Effect)
  (vec : list nat) : option (list nat) :=
  match fxs with
  | [] => Some vec
  | fx :: rest =>
      let lc := str.tolower (_name fx) in
      if String.eqb lc name then None
      else if found_in lc name then scan_effects name it rest (vec ++ [it])
      else scan_effects name it rest vec
  end.

(** The loop of each case of the [switch]: [inl it] when the loop returns
    the iterator [it], [inr vec] when it runs to the end. *)
Fixpoint loop_INGR (name : string) (rest : list Ingredient) (it : nat)
  (vec : list nat) : nat + list nat :=
  match rest with
  | [] => inr vec
  | i :: rest' =>
      let name_lc := str.tolower (_name i) in
      if String.eqb name_lc name then inl it
      else if found_in name_lc name
           then loop_INGR name rest' (S it) (vec ++ [it])
           else loop_INGR name rest' (S it) vec
  end.

Fixpoint loop_BOTH (name : string) (rest : list Ingredient) (it : nat)
  (vec : list nat) : nat + list nat :=
  match rest with
  | [] => inr vec
  | i :: rest' =>
      let name_lc := str.tolower (_name i) in
      if String.eqb name_lc name then inl it
      else if found_in name_lc name
           then loop_BOTH name rest' (S it) (vec ++ [it])
           else match scan_effects name it (_effects i) vec with
                | None => inl it
                | Some vec' => loop_BOTH name rest' (S it) vec'
                end
  end.

Fixpoint loop_EFFECT (name : string) (rest : list Ingredient) (it : nat)
  (vec : list nat) : nat + list nat :=
  match rest with
  | [] => inr vec
  | i :: rest' =>
      match scan_effects name it (_effects i) vec with
      | None => inl it
      | Some vec' => loop_EFFECT name rest' (S it) vec'
      end
  end.

(** [RegistryType::find_best_fit]. *)
Definition find_best_fit (_ingr : Container) (name : string)
  (search : FindType) : nat :=
  let outcome :=
    match search with
    | INGR => loop_INGR name _ingr 0 []
    | BOTH => loop_BOTH name _ingr 0 []
    | EFFECT => loop_EFFECT name _ingr 0 []
    end in
  match outcome with
  | inl it => it
  | inr [] => length _ingr
  | inr (front :: _) => front
  end.

(** [cont.insert(it)] in a loop body. *)
Definition insert_into (cont : Container) (it : Ingredient) : Container :=
  fst (set_insert cont it).

(** [RegistryType::find]: the query is lowered first, then every entry that
    passes the test of the scope is inserted into a new container. *)
Definition find (pred : string -> string -> bool) (_ingr : Container)
  (name : string) (search : FindType) : Container :=
  let name := str.tolower name in
  match search with
  | INGR =>
      fold_left
        (fun (cont : Container) (it : Ingredient) =>
           if pred (str.tolower (_name it)) name
           then insert_into cont it else cont)
        _ingr []
  | BOTH =>
      fold_left
        (fun (cont : Container) (it : Ingredient) =>
           if pred (str.tolower (_name it)) name
              || existsb (fun fx : Effect => pred (str.tolower (_name fx)) name)
                         (_effects it)
           then insert_into cont it else cont)
        _ingr []
  | EFFECT =>
      fold_left
        (fun (cont : Container) (it : Ingredient) =>
           if existsb (fun fx : Effect => pred (str.tolower (_name fx)) name)
                      (_effects it)
           then insert_into cont it else cont)
        _ingr []
  end.

(** [RegistryType::find_and_duplicate]: the same scan, the container handed
    to a new registry. *)
Definition find_and_duplicate (pred : string -> string -> bool)
  (_ingr : Container) (name : string) (search : FindType) : Container :=
  let name := str.tolower name in
  let cont :=
    match search with
    | INGR =>
        fold_left
          (fun (cont : Container) (it : Ingredient) =>
             if pred (str.tolower (_name it)) name
             then insert_into cont it else cont)
          _ingr []
    | BOTH =>
        fold_left
          (fun (cont : Container) (it : Ingredient) =>
             if pred (str.tolower (_name it)) name
                || existsb (fun fx : Effect => pred (str.tolower (_name fx)) name)
                           (_effects it)
             then insert_into cont it else cont)
          _ingr []
    | EFFECT =>
        fold_left
          (fun (cont : Container) (it : Ingredient) =>
             if existsb (fun fx : Effect => pred (str.tolower (_name fx)) name)
                        (_effects it)
             then insert_into cont it else cont)
          _ingr []
    end in
  cont.

End RegistryType.

(* ================================================================= *)
(** ** Format.hpp *)

(** [OutputFormat]: the display flags and widths.  The colour table
    [_colors] is read by none of the operations below and is left out. *)
Record OutputFormat := mkOutputFormat {
  _flag_quiet : bool;
  _flag_verbose : bool;
  _flag_exact : bool;
  _flag_all : bool;
  _flag_export : bool;
  _flag_reverse : bool;
  _flag_color : bool;
  _flag_smart : bool;
  _indent : N;
  _precision : N
}.

Module OutputFormat_.

(** [OutputFormat::match]. *)
Definition match_ (fmt : OutputFormat) (objName searchName : string) : bool :=
  if _flag_exact fmt then String.eqb objName searchName
  else String.eqb objName searchName
       || pos_lt (string_find objName searchName) (String.length objName).

End OutputFormat_.

Module Formatter.

(** [Formatter::vectorize_effects(effects, search_strings)]. *)
Definition vectorize_effects (fmt : OutputFormat) (effects : list Effect)
  (search_strings : list string) : list Effect :=
  fold_left
    (fun (vec : list Effect) (fx : Effect) =>
       if negb (_flag_quiet fmt) then vec ++ [fx]
       else
         let name := str.tolower (_name fx) in
         if existsb (fun search_str => OutputFormat_.match_ fmt name search_str)
                    search_strings
         then vec ++ [fx]
         else vec)
    effects [].

End Formatter.

Module Format.

(** The loop of [Format::get_fx], over the slots [rest] still to visit. *)
Fixpoint get_fx_loop (fmt : OutputFormat) (rest : list Effect)
  (names_lowercase : list string) (vec : list Effect) : list Effect :=
  match rest with
  | [] => vec
  | it :: rest' =>
      if negb (_flag_quiet fmt)
      then get_fx_loop fmt rest' names_lowercase (vec ++ [it])
      else
        let lc := str.tolower (_name it) in
        if existsb (fun name => OutputFormat_.match_ fmt lc name) names_lowercase
        then
          let vec' := vec ++ [it] in
          if _flag_exact fmt then vec'
          else get_fx_loop fmt rest' names_lowercase vec'
        else get_fx_loop fmt rest' names_lowercase vec
  end.

(** [Format::get_fx]. *)
Definition get_fx (fmt : OutputFormat) (arr : list Effect)
  (names_lowercase : list string) : list Effect :=
  get_fx_loop fmt arr names_lowercase [].

(** The three pieces returned by [get_tuple] once the highlight was found at
    [dPos]. *)
Definition split_at (str highlight : string) (dPos : nat)
  : except (string * string * string) :=
  bind (substr str 0 (Some dPos)) (fun pre =>
  bind (substr str dPos (Some (String.length highlight))) (fun mid =>
  bind (substr str (dPos + String.length highlight) None) (fun post =>
  Return (pre, mid, post)))).

(** [Format::get_tuple(str, highlight)]. *)
Definition get_tuple (str highlight : string)
  : except (string * string * string) :=
  match str with
  | EmptyString => Return (str, EmptyString, EmptyString)
  | String _ _ =>
      match string_find (str.tolower str) highlight with
      | Some dPos => split_at str highlight dPos
      | None => Return (str, EmptyString, EmptyString)
      end
  end.

(** The loop of [Format::get_tuple(str, highlights)] over the highlights
    still to try. *)
Fixpoint get_tuple_loop (str : string) (highlights : list string)
  : except (string * string * string) :=
  match highlights with
  | [] => Return (str, EmptyString, EmptyString)
  | highlight :: rest =>
      match string_find (str.tolower str) highlight with
      | Some dPos => split_at str highlight dPos
      | None => get_tuple_loop str rest
      end
  end.

(** [Format::get_tuple(str, highlights)]. *)
Definition get_tuple_list (str : string) (highlights : list string)
  : except (string * string * string) :=
  match str with
  | EmptyString => Return (str, EmptyString, EmptyString)
  | String _ _ => get_tuple_loop str highlights
  end.

End Format.

(* ================================================================= *)
(** ** Vocabulary of the properties *)

(** The effect slots of the ingredients, in the order the reduction walks
    them. *)
Definition all_effects (ingr : list Ingredient) : list Effect :=
  concat (map _effects ingr).

Definition names (l : list Effect) : list string :=
  map (fun e : Effect => _name e) l.

(** The names seen at least twice, in the order in which they are seen for
    the second time; [r] lists the names latest first. *)
Fixpoint confirmed_rev (r : list string) : list string :=
  match r with
  | [] => []
  | n :: earlier =>
      if count_occ string_dec earlier n =? 1
      then confirmed_rev earlier ++ [n]
      else confirmed_rev earlier
  end.

Definition confirm_order (l : list string) : list string :=
  confirmed_rev (rev l).

(** [e] carries the largest magnitude among the sightings of its name in
    [l]. *)
Definition max_magnitude_of (l : list Effect) (e : Effect) : Prop :=
  (exists x, In x l /\ _name x = _name e /\ _magnitude x = _magnitude e) /\
  (forall x, In x l -> _name x = _name e -> (_magnitude x <= _magnitude e)%Q).

(** [e] carries the largest duration among the sightings of its name in
    [l]. *)
Definition max_duration_of (l : list Effect) (e : Effect) : Prop :=
  (exists x, In x l /\ _name x = _name e /\ _duration x = _duration e) /\
  (forall x, In x l -> _name x = _name e -> (_duration x <= _duration e)%N).

(** The number of ingredients that have an effect named [n]. *)
Definition carriers (n : string) (ingr : list Ingredient) : nat :=
  length (filter
            (fun i : Ingredient =>
               existsb (fun e : Effect => String.eqb (_name e) n) (_effects i))
            ingr).

(** The output contract of the reduction in the words of the specification:
    the names on at least two ingredients, each with the largest magnitude
    and the largest duration of its sightings. *)
Definition shared_by_two_ingredients (ingr : list Ingredient)
  (common : EffectList) : Prop :=
  (forall n, In n (names common) <-> 2 <= carriers n ingr) /\
  Forall (fun e => max_magnitude_of (all_effects ingr) e /\
                   max_duration_of (all_effects ingr) e) common.

(** The reduction on a flat sequence of effect slots. *)
Definition merge_effects (p : list Effect) : EffectList * EffectList :=
  fold_left merge_effect p ([], []).

(** What the two buffers hold once the slots [p] have been walked: [tmp] the
    first sighting of every name, [common] the names seen twice, in the order
    of their second sighting, each with the largest magnitude seen. *)
Record merge_inv (p : list Effect) (st : EffectList * EffectList) : Prop := {
  inv_tmp_names : forall n, In n (names (snd st)) <-> In n (names p);
  inv_tmp_seen : forall e, In e (snd st) -> In e p;
  inv_common_names : names (fst st) = confirm_order (names p);
  inv_common_max : Forall (max_magnitude_of p) (fst st)
}.

(** Concrete records for the examples: an effect without keywords, and an
    ingredient with its four effect slots. *)
Definition effect_of (name : string) (magnitude : Q) (duration : N) : Effect :=
  mkEffect (mkObject name) magnitude duration [].

Definition ingredient_of (name : string) (e1 e2 e3 e4 : Effect) : Ingredient :=
  mkIngredient (mkObject name) [e1; e2; e3; e4].

(** The settings function [f(x) = x * 2]. *)
Definition doubling : GameSettings := mkGameSettings (fun x => (x * 2)%Q).

(** The ordering keys of a collection, in iteration order. *)
Definition keys (s : list Ingredient) : list string :=
  map (fun i : Ingredient => _name i) s.

Definition str_lt (a b : string) : Prop := String.ltb a b = true.

(** The invariant of the ordered set: keys strictly increasing. *)
Definition ordered (s : Container) : Prop := StronglySorted str_lt (keys s).

Definition has_key (k : string) (i : Ingredient) : bool :=
  String.eqb (_name i) k.

(** The earliest entry of a sequence that has the key [k]. *)
Definition first_with_key (k : string) (l : list Ingredient)
  : option Ingredient :=
  find (has_key k) l.

(** [pat] occurs somewhere within [s]. *)
Definition occurs_in (pat s : string) : Prop :=
  exists pre post, s = (pre ++ pat ++ post)%string.

(** Containment that ignores case, in the words of the specification. *)
Definition occurs_in_nocase (pat s : string) : Prop :=
  occurs_in (str.tolower pat) (str.tolower s).

(** A format with the defaults of the [Format] constructor and the given
    quiet and exact flags. *)
Definition format_with (quiet exact : bool) : OutputFormat :=
  mkOutputFormat quiet true exact false false false true false 3 2.

(** An effect qualifies when its lowered name matches one of the terms. *)
Definition qualifies (fmt : OutputFormat) (terms : list string) (fx : Effect)
  : bool :=
  existsb (fun term => OutputFormat_.match_ fmt (str.tolower (_name fx)) term)
          terms.

(** The first qualifying effect alone, as a list. *)
Definition first_qualifying (fmt : OutputFormat) (terms : list string)
  (arr : list Effect) : list Effect :=
  match find (qualifies fmt terms) arr with
  | Some fx => [fx]
  | None => []
  end.

(** The test that [get] applies to an entry. *)
Definition get_hit (pred : string -> string -> bool) (name : string)
  (only_effects : bool) (i : Ingredient) : bool :=
  if only_effects
  then existsb (fun fx : Effect => pred (str.tolower (_name fx)) name)
               (_effects i)
  else String.eqb (_name i) name.

(** The test of [get] in the words of the specification: effect names are
    matched against the lowered query. *)
Definition get_hit_lowered (pred : string -> string -> bool) (name : string)
  (only_effects : bool) (i : Ingredient) : bool :=
  if only_effects
  then existsb (fun fx : Effect => pred (str.tolower (_name fx))
                                        (str.tolower name))
               (_effects i)
  else String.eqb (_name i) name.

(** The position of the first element that passes [p], the length of the
    list when none does. *)
Fixpoint index_of {A : Type} (p : A -> bool) (l : list A) : nat :=
  match l with
  | [] => 0
  | x :: rest => if p x then 0 else S (index_of p rest)
  end.

(** The lowered name of a record is the query, or holds it. *)
Definition lowered_is (name : string) (o : ObjectBase) : bool :=
  String.eqb (str.tolower (_name o)) name.

Definition lowered_has (name : string) (o : ObjectBase) : bool :=
  RegistryType.found_in (str.tolower (_name o)) name.

Definition fx_is (name : string) (i : Ingredient) : bool :=
  existsb (fun fx : Effect => lowered_is name fx) (_effects i).

Definition fx_has (name : string) (i : Ingredient) : bool :=
  existsb (fun fx : Effect => lowered_has name fx) (_effects i).

(** The entries on which [find_best_fit] returns at once, by scope. *)
Definition exact_hit (search : RegistryType.FindType) (name : string)
  (i : Ingredient) : bool :=
  match search with
  | RegistryType.INGR => lowered_is name i
  | RegistryType.BOTH =>
      lowered_is name i || (negb (lowered_has name i) && fx_is name i)
  | RegistryType.EFFECT => fx_is name i
  end.

(** The entries that [find_best_fit] collects when it does not return on
    them, by scope. *)
Definition candidate (search : RegistryType.FindType) (name : string)
  (i : Ingredient) : bool :=
  match search with
  | RegistryType.INGR => lowered_has name i
  | RegistryType.BOTH => lowered_has name i || fx_has name i
  | RegistryType.EFFECT => fx_has name i
  end.

(** How many times the entry is pushed on the vector. *)
Definition pushes (search : RegistryType.FindType) (name : string)
  (i : Ingredient) : nat :=
  let per_effect :=
    length (filter (fun fx : Effect => lowered_has name fx) (_effects i)) in
  match search with
  | RegistryType.INGR => if lowered_has name i then 1 else 0
  | RegistryType.BOTH => if lowered_has name i then 1 else per_effect
  | RegistryType.EFFECT => per_effect
  end.

(** The vector collected over the entries [rest] that start at [it]. *)
Fixpoint collected (search : RegistryType.FindType) (name : string)
  (rest : list Ingredient) (it : nat) : list nat :=
  match rest with
  | [] => []
  | i :: rest' =>
      repeat it (pushes search name i) ++ collected search name rest' (S it)
  end.

(** The best fit: the first entry hit exactly, failing that the first
    candidate, failing that the end of the collection. *)
Definition best_fit (search : RegistryType.FindType) (name : string)
  (reg : Container) : nat :=
  if existsb (exact_hit search name) reg
  then index_of (exact_hit search name) reg
  else index_of (candidate search name) reg.

(** The sightings of the name [n] among the slots [p], in walking order. *)
Definition sightings (n : string) (p : list Effect) : list Effect :=
  filter (fun e : Effect => String.eqb (_name e) n) p.

(** What the reduction makes of the sightings of one name: nothing of a
    single sighting; of two the stronger one, the later one on a tie; every
    further sighting raises magnitude and duration. *)
Definition merge_sightings (l : list Effect) : option Effect :=
  match l with
  | first :: second :: later =>
      Some (fold_left (fun current it => raise_to it current) later
              (if Qltb (_magnitude second) (_magnitude first)
               then first else second))
  | _ => None
  end.

(** Every confirmed effect is what its own sightings merge to. *)
Definition by_sightings (p : list Effect) (st : EffectList * EffectList)
  : Prop :=
  Forall (fun e : Effect =>
            merge_sightings (sightings (_name e) p) = Some e) (fst st).

(** The test that [find] applies to an entry, by scope, for the lowered
    query [name]. *)
Definition find_test (pred : string -> string -> bool) (name : string)
  (search : RegistryType.FindType) (it : Ingredient) : bool :=
  let on_name := pred (str.tolower (_name it)) name in
  let on_effects :=
    existsb (fun fx : Effect => pred (str.tolower (_name fx)) name)
            (_effects it) in
  match search with
  | RegistryType.INGR => on_name
  | RegistryType.BOTH => on_name || on_effects
  | RegistryType.EFFECT => on_effects
  end.

(* ================================================================= *)
(** ** Potion.hpp: the precondition of the reduction *)

Lemma get_common_effects_in_range (ingr : list Ingredient) :
  2 <= length ingr <= 4 ->
  get_common_effects ingr = Return (fst (merge_ingredients ingr)).
Proof.
  intros [Hlo Hhi]. unfold get_common_effects.
  destruct (Nat.ltb_spec 4 (length ingr)) as [H | _]; [lia |].
  destruct (Nat.ltb_spec (length ingr) 2) as [H | _]; [lia | reflexivity].
Qed.

(** C2: [get_common_effects] throws exactly when it is given fewer than 2 or
    more than 4 ingredients; given 2, 3 or 4 it returns a list. *)
Theorem get_common_effects_throws_iff (ingr : list Ingredient) :
  ((exists what, get_common_effects ingr = Throw what) <->
   (length ingr < 2 \/ 4 < length ingr)) /\
  ((exists common, get_common_effects ingr = Return common) <->
   2 <= length ingr <= 4).
Proof.
  unfold get_common_effects.
  destruct (Nat.ltb_spec 4 (length ingr)) as [H4 | H4].
  - split; split.
    + intros _. right. exact H4.
    + intros _. eexists. reflexivity.
    + intros [c Hc]. discriminate Hc.
    + lia.
  - destruct (Nat.ltb_spec (length ingr) 2) as [H2 | H2].
    + split; split.
      * intros _. left. exact H2.
      * intros _. eexists. reflexivity.
      * intros [c Hc]. discriminate Hc.
      * lia.
    + split; split.
      * intros [w Hw]. discriminate Hw.
      * lia.
      * intros _. lia.
      * intros _. eexists. reflexivity.
Qed.

(* ================================================================= *)
(** ** Potion.hpp: scaling *)

Lemma calculate_stats_loop (gs : GameSettings) (base vec : EffectList) :
  fold_left
    (fun (vec : EffectList) (it : Effect) =>
       let magnitude := calculate_magnitude gs (_magnitude it) in
       let duration := _duration it in
       vec ++ [Effect3 (_name it) magnitude duration])
    base vec
  = vec ++ map (fun it : Effect =>
                  Effect3 (_name it) (calculate_magnitude gs (_magnitude it))
                          (_duration it)) base.
Proof.
  revert vec. induction base as [| it base IH]; intros vec; simpl.
  - now rewrite app_nil_r.
  - rewrite IH. now rewrite <- app_assoc.
Qed.

Lemma calculate_stats_map (base : EffectList) (gs : GameSettings) :
  calculate_stats base gs
  = map (fun it : Effect =>
           Effect3 (_name it) (calculate_magnitude gs (_magnitude it))
                   (_duration it)) base.
Proof.
  unfold calculate_stats. now rewrite calculate_stats_loop.
Qed.

(** C4: [calculate_stats] returns as many effects as it is given; the i-th
    one has the name and the duration of the i-th base effect and the
    settings function of its magnitude; under [f(x) = x * 2] every magnitude
    is doubled and every duration is unchanged. *)
Theorem calculate_stats_pointwise (base : EffectList) (gs : GameSettings) :
  length (calculate_stats base gs) = length base /\
  (forall i b, nth_error base i = Some b ->
     exists e, nth_error (calculate_stats base gs) i = Some e /\
       _name e = _name b /\
       _magnitude e = calculate_magnitude gs (_magnitude b) /\
       _duration e = _duration b) /\
  map _magnitude (calculate_stats base doubling)
    = map (fun b => (_magnitude b * 2)%Q) base /\
  map _duration (calculate_stats base doubling) = map _duration base.
Proof.
  rewrite !calculate_stats_map. repeat split.
  - apply length_map.
  - intros i b Hb. eexists. split.
    + rewrite nth_error_map, Hb. reflexivity.
    + repeat split.
  - rewrite map_map. reflexivity.
  - rewrite map_map. reflexivity.
Qed.

Example calculate_stats_pointwise_witness :
  exists e,
    nth_error
      (calculate_stats [mkEffect (mkObject "Fire Damage") (10 # 1) 5 []] doubling)
      0 = Some e /\
    _name e = "Fire Damage"%string /\
    _magnitude e = ((10 # 1) * 2)%Q /\
    _duration e = 5%N.
Proof.
  destruct (calculate_stats_pointwise
              [mkEffect (mkObject "Fire Damage") (10 # 1) 5 []] doubling)
    as (_ & H & _).
  exact (H 0 _ eq_refl).
Defined.




(* ================================================================= *)
(** ** Potion.hpp: the effect-merge reduction *)

Section Buffers.

Implicit Types (l p common tmp : EffectList) (it e x : Effect).

Lemma is_duplicate_None l it :
  is_duplicate l it = None -> ~ In (_name it) (names l).
Proof.
  induction l as [| e l IH]; simpl; [tauto |].
  destruct (String.eqb_spec (_name e) (_name it)) as [Heq | Hne];
    [discriminate |].
  destruct (is_duplicate l it); [discriminate |].
  intros _ [H | H]; [congruence | now apply IH].
Qed.

Lemma is_duplicate_Some l it d :
  is_duplicate l it = Some d ->
  exists l1 e l2,
    l = l1 ++ e :: l2 /\ length l1 = d /\ _name e = _name it /\
    ~ In (_name it) (names l1).
Proof.
  revert d. induction l as [| e l IH]; simpl; intros d; [discriminate |].
  destruct (String.eqb_spec (_name e) (_name it)) as [Heq | Hne].
  - intros [= <-]. exists [], e, l. simpl. tauto.
  - destruct (is_duplicate l it) as [d' |]; [| discriminate].
    intros [= <-]. destruct (IH d' eq_refl) as (l1 & e' & l2 & -> & Hl & Hn & Hnot).
    exists (e :: l1), e', l2. simpl. repeat split; auto.
    intros [H | H]; [congruence | tauto].
Qed.

Lemma nth_middle_len l1 e l2 it : nth (length l1) (l1 ++ e :: l2) it = e.
Proof. induction l1; simpl; auto. Qed.

Lemma assign_at_middle l1 e l2 f :
  assign_at (l1 ++ e :: l2) (length l1) f = l1 ++ f e :: l2.
Proof. induction l1; simpl; [reflexivity | now f_equal]. Qed.

Lemma names_app l1 l2 : names (l1 ++ l2) = names l1 ++ names l2.
Proof. apply map_app. Qed.

Lemma names_snoc l e : names (l ++ [e]) = names l ++ [_name e].
Proof. apply map_app. Qed.

Lemma In_names l e : In e l -> In (_name e) (names l).
Proof. intros H. unfold names. apply in_map_iff. now exists e. Qed.

End Buffers.

Section ConfirmOrder.

Implicit Types (l : list string) (n m : string).

Lemma confirm_order_snoc l n :
  confirm_order (l ++ [n])
  = if count_occ string_dec l n =? 1
    then confirm_order l ++ [n] else confirm_order l.
Proof.
  unfold confirm_order. rewrite rev_app_distr. simpl.
  now rewrite count_occ_rev.
Qed.

Lemma confirm_order_In l n :
  In n (confirm_order l) <-> 2 <= count_occ string_dec l n.
Proof.
  induction l as [| m l IH] using rev_ind.
  - simpl. split; [tauto | lia].
  - rewrite confirm_order_snoc, count_occ_app. simpl.
    destruct (string_dec m n) as [-> | Hne].
    + destruct (Nat.eqb_spec (count_occ string_dec l n) 1) as [H1 | H1].
      * rewrite in_app_iff. simpl. split; [lia | auto].
      * rewrite IH. lia.
    + destruct (count_occ string_dec l m =? 1).
      * rewrite in_app_iff, IH. simpl. split; [| intros; left; lia].
        intros [H | [H | []]]; [lia | congruence].
      * rewrite IH. lia.
Qed.

Lemma confirm_order_NoDup l : NoDup (confirm_order l).
Proof.
  induction l as [| m l IH] using rev_ind.
  - constructor.
  - rewrite confirm_order_snoc.
    destruct (Nat.eqb_spec (count_occ string_dec l m) 1) as [H1 | H1]; auto.
    apply NoDup_app; [assumption | repeat constructor; simpl; tauto |].
    intros n Hn [<- | []]. apply confirm_order_In in Hn. lia.
Qed.

Lemma confirm_order_nil_of_NoDup l : NoDup l -> confirm_order l = [].
Proof.
  intros Hnd. destruct (confirm_order l) as [| n t] eqn:E; [reflexivity |].
  assert (Hin : In n (confirm_order l)) by (rewrite E; now left).
  apply confirm_order_In in Hin.
  pose proof (proj1 (NoDup_count_occ string_dec l) Hnd n). lia.
Qed.

End ConfirmOrder.

Section MergeInvariant.

Implicit Types (l p common tmp : EffectList) (it e x y : Effect).

(** Membership in a sequence extended by one slot: in the sequence, or the
    new slot itself. *)
Ltac in_snoc H :=
  apply in_app_iff in H; destruct H as [H | [<- | []]].

Lemma Qltb_true a b : Qltb a b = true -> (a < b)%Q.
Proof.
  unfold Qltb. intros H. apply negb_true_iff in H.
  apply Qnot_le_lt. intros Hle. apply Qle_bool_iff in Hle. congruence.
Qed.

Lemma Qltb_false a b : Qltb a b = false -> (b <= a)%Q.
Proof.
  unfold Qltb. intros H. apply negb_false_iff in H.
  now apply Qle_bool_iff.
Qed.

Lemma raise_to_name it e : _name (raise_to it e) = _name e.
Proof.
  unfold raise_to.
  destruct (Qltb (_magnitude e) (_magnitude it));
    match goal with |- context [N.ltb ?a ?b] => destruct (N.ltb a b) end;
    reflexivity.
Qed.

Lemma raise_to_magnitude it e :
  _magnitude (raise_to it e)
  = if Qltb (_magnitude e) (_magnitude it)
    then _magnitude it else _magnitude e.
Proof.
  unfold raise_to.
  destruct (Qltb (_magnitude e) (_magnitude it));
    match goal with |- context [N.ltb ?a ?b] => destruct (N.ltb a b) end;
    reflexivity.
Qed.

Lemma count_occ_names_In p n :
  0 < count_occ string_dec (names p) n <-> In n (names p).
Proof. symmetry. apply count_occ_In. Qed.

(** A name counted once has one sighting. *)
Lemma single_sighting p n x y :
  count_occ string_dec (names p) n <= 1 ->
  In x p -> In y p -> _name x = n -> _name y = n -> x = y.
Proof.
  induction p as [| e p IH]; simpl; [tauto |].
  destruct (string_dec (_name e) n) as [He | He].
  - intros Hc. assert (H0 : ~ In n (names p)).
    { intros Hin. apply count_occ_names_In in Hin. lia. }
    intros [<- | Hx] [<- | Hy] Hnx Hny; auto; exfalso; apply H0.
    + rewrite <- Hny. now apply In_names.
    + rewrite <- Hnx. now apply In_names.
    + rewrite <- Hnx. now apply In_names.
  - intros Hc [<- | Hx] [<- | Hy] Hnx Hny; try congruence. now apply IH.
Qed.

Lemma max_magnitude_other p it e :
  _name e <> _name it ->
  max_magnitude_of p e -> max_magnitude_of (p ++ [it]) e.
Proof.
  intros Hne [(x & Hx & Hn & Hm) Hall]. split.
  - exists x. rewrite in_app_iff. auto.
  - intros y Hy Hny. in_snoc Hy; [now apply Hall | congruence].
Qed.

Lemma merge_inv_nil : merge_inv [] ([], []).
Proof. split; simpl; try tauto; constructor. Qed.

Lemma merge_effect_inv p st it :
  merge_inv p st -> merge_inv (p ++ [it]) (merge_effect st it).
Proof.
  destruct st as [common tmp]. intros [Htn Hts Hcn Hcm]. simpl in *.
  unfold merge_effect.
  destruct (is_duplicate tmp it) as [d |] eqn:Htmp.
  - (* the name was seen before *)
    apply is_duplicate_Some in Htmp.
    destruct Htmp as (t1 & dupl & t2 & -> & <- & Hdn & _).
    rewrite nth_middle_len.
    assert (Hdp : In dupl p) by (apply Hts, in_elt).
    assert (Hseen : 1 <= count_occ string_dec (names p) (_name it)).
    { apply count_occ_names_In. rewrite <- Hdn. now apply In_names. }
    destruct (is_duplicate common it) as [c |] eqn:Hcom.
    + (* already confirmed: raise the stored entry *)
      apply is_duplicate_Some in Hcom.
      destruct Hcom as (c1 & cur & c2 & -> & <- & Hcurn & _).
      rewrite assign_at_middle.
      assert (Hnd : NoDup (names (c1 ++ cur :: c2))).
      { rewrite Hcn. apply confirm_order_NoDup. }
      assert (Hin2 : 2 <= count_occ string_dec (names p) (_name it)).
      { apply confirm_order_In. rewrite <- Hcn, names_app. simpl.
        rewrite in_app_iff. right. left. exact Hcurn. }
      rewrite names_app in Hnd. simpl in Hnd.
      apply NoDup_remove_2 in Hnd. rewrite in_app_iff in Hnd.
      split; simpl.
      * intros n. rewrite Htn, names_app, in_app_iff. simpl.
        split; [auto |]. intros [H | [<- | []]]; auto.
        apply count_occ_names_In. lia.
      * intros e He. apply in_app_iff. left. now apply Hts.
      * rewrite (names_snoc p), confirm_order_snoc.
        destruct (Nat.eqb_spec (count_occ string_dec (names p) (_name it)) 1);
          [lia |].
        rewrite <- Hcn, !names_app. simpl. now rewrite raise_to_name.
      * apply Forall_app in Hcm. destruct Hcm as [Hc1 Hc2].
        apply Forall_cons_iff in Hc2. destruct Hc2 as [Hcur Hc2].
        apply Forall_app. split; [| apply Forall_cons].
        -- apply Forall_forall. intros e He.
           apply max_magnitude_other.
           ++ intros Heq. apply Hnd. left. rewrite Hcurn, <- Heq.
              now apply In_names.
           ++ eapply Forall_forall in Hc1; eauto.
        -- destruct Hcur as [(x & Hx & Hxn & Hxm) Hall].
           unfold max_magnitude_of.
           rewrite raise_to_name, raise_to_magnitude.
           destruct (Qltb (_magnitude cur) (_magnitude it)) eqn:Hlt.
           ++ apply Qltb_true in Hlt. split.
              ** exists it. rewrite in_app_iff. simpl. auto.
              ** intros y Hy Hyn. in_snoc Hy; [| apply Qle_refl].
                 apply Qle_trans with (_magnitude cur);
                   [now apply Hall | now apply Qlt_le_weak].
           ++ apply Qltb_false in Hlt. split.
              ** exists x. rewrite in_app_iff. auto.
              ** intros y Hy Hyn. in_snoc Hy; [now apply Hall | exact Hlt].
        -- apply Forall_forall. intros e He.
           apply max_magnitude_other.
           ++ intros Heq. apply Hnd. right. rewrite Hcurn, <- Heq.
              now apply In_names.
           ++ eapply Forall_forall in Hc2; eauto.
    + (* second sighting: promote the stronger of the two *)
      apply is_duplicate_None in Hcom.
      assert (Hone : count_occ string_dec (names p) (_name it) = 1).
      { rewrite Hcn, confirm_order_In in Hcom. lia. }
      assert (Hold : Forall (max_magnitude_of (p ++ [it])) common).
      { apply Forall_forall. intros e He. apply max_magnitude_other.
        - intros Heq. apply Hcom. rewrite <- Heq. now apply In_names.
        - eapply Forall_forall in Hcm; eauto. }
      assert (Hnames : forall w : Effect, _name w = _name it ->
                names (common ++ [w]) = confirm_order (names (p ++ [it]))).
      { intros w Hw. rewrite !names_snoc, confirm_order_snoc.
        rewrite Hone. simpl. now rewrite Hcn, Hw. }
      assert (Htmp' : forall n, In n (names (t1 ++ dupl :: t2)) <->
                                In n (names (p ++ [it]))).
      { intros n. rewrite Htn, (names_app p), in_app_iff. simpl.
        split; [auto |]. intros [H | [<- | []]]; auto.
        apply count_occ_names_In. lia. }
      assert (Hts' : forall e, In e (t1 ++ dupl :: t2) -> In e (p ++ [it])).
      { intros e He. apply in_app_iff. left. now apply Hts. }
      destruct (Qltb (_magnitude it) (_magnitude dupl)) eqn:Hlt.
      * apply Qltb_true in Hlt. split; simpl; auto.
        apply Forall_app. split; [exact Hold |]. constructor; [| constructor].
        split.
        -- exists dupl. rewrite in_app_iff. auto.
        -- intros y Hy Hyn. in_snoc Hy; [| now apply Qlt_le_weak].
           rewrite (single_sighting p (_name it) y dupl); auto;
             [apply Qle_refl | lia | congruence].
      * apply Qltb_false in Hlt. split; simpl; auto.
        apply Forall_app. split; [exact Hold |]. constructor; [| constructor].
        split.
        -- exists it. rewrite in_app_iff. simpl. auto.
        -- intros y Hy Hyn. in_snoc Hy; [| apply Qle_refl].
           rewrite (single_sighting p (_name it) y dupl); auto; lia.
  - (* first sighting *)
    apply is_duplicate_None in Htmp.
    assert (Hzero : count_occ string_dec (names p) (_name it) = 0).
    { rewrite Htn in Htmp. rewrite <- count_occ_names_In in Htmp. lia. }
    split; simpl.
    + intros n. rewrite !names_app, !in_app_iff, Htn. tauto.
    + intros e He. apply in_app_iff in He. apply in_app_iff.
      destruct He as [He | He]; [left; now apply Hts | now right].
    + rewrite (names_snoc p), confirm_order_snoc. now rewrite Hzero.
    + apply Forall_forall. intros e He. apply max_magnitude_other.
      * intros Heq.
        assert (Hin : In (_name e) (names common)) by now apply In_names.
        rewrite Hcn, confirm_order_In, Heq in Hin. lia.
      * eapply Forall_forall in Hcm; eauto.
Qed.

Lemma merge_effects_snoc p it :
  merge_effects (p ++ [it]) = merge_effect (merge_effects p) it.
Proof. unfold merge_effects. now rewrite fold_left_app. Qed.

Lemma merge_effects_inv p : merge_inv p (merge_effects p).
Proof.
  induction p as [| it p IH] using rev_ind.
  - apply merge_inv_nil.
  - rewrite merge_effects_snoc. now apply merge_effect_inv.
Qed.

Lemma merge_ingredients_flat (ingr : list Ingredient) :
  merge_ingredients ingr = merge_effects (all_effects ingr).
Proof.
  unfold merge_ingredients, merge_effects, all_effects.
  generalize (@nil Effect, @nil Effect) as st.
  induction ingr as [| i ingr IH]; intros st; simpl; [reflexivity |].
  now rewrite fold_left_app, IH.
Qed.

End MergeInvariant.

(** A list without repetition whose only possible element is [k] is the
    list of [k] alone. *)
Lemma NoDup_singleton {A : Type} (l : list A) (k : A) :
  NoDup l -> (forall n, In n l <-> n = k) -> l = [k].
Proof.
  intros Hnd Hiff. destruct l as [| a [| b t]].
  - exfalso. apply (proj2 (Hiff k) eq_refl).
  - f_equal. apply Hiff. now left.
  - exfalso.
    assert (Ha : a = k) by (apply Hiff; now left).
    assert (Hb : b = k) by (apply Hiff; right; now left).
    subst. inversion Hnd as [| ? ? Hnot _]. apply Hnot. now left.
Qed.

(** When the slots [l] are the slot [e2] and slots [rest] of distinct
    names, one of which, the weaker [e1], has the name of [e2], then a
    duplicate-free list that holds one effect for every name seen twice,
    each of the largest magnitude, is one effect with the name and the
    magnitude of [e2]. *)
Lemma one_shared_name (l rest : list Effect) (e1 e2 : Effect)
  (common : EffectList) :
  Permutation l (e2 :: rest) -> In e1 rest -> NoDup (names rest) ->
  _name e1 = _name e2 -> (_magnitude e1 < _magnitude e2)%Q ->
  NoDup (names common) ->
  (forall n, In n (names common) <->
             2 <= count_occ string_dec (names l) n) ->
  Forall (max_magnitude_of l) common ->
  exists e : Effect,
    common = [e] /\ _name e = _name e2 /\ _magnitude e = _magnitude e2.
Proof.
  intros Hperm Hin Hnd Hname Hlt Hndc Hiff Hmax.
  assert (Hcount : forall n,
             count_occ string_dec (names l) n
             = (if string_dec (_name e2) n then 1 else 0)
               + count_occ string_dec (names rest) n).
  { intros n. unfold names.
    rewrite (proj1 (Permutation_count_occ string_dec _ _)
                   (Permutation_map (fun e : Effect => _name e) Hperm) n).
    simpl. destruct (string_dec (_name e2) n); reflexivity. }
  assert (Hle : forall n, count_occ string_dec (names rest) n <= 1)
    by (intros n; now apply NoDup_count_occ).
  assert (Hone : 1 <= count_occ string_dec (names rest) (_name e2)).
  { apply count_occ_names_In. rewrite <- Hname. now apply In_names. }
  assert (Honly : names common = [_name e2]).
  { apply NoDup_singleton; [exact Hndc |]. intros n.
    rewrite Hiff, Hcount. specialize (Hle n).
    destruct (string_dec (_name e2) n) as [<- | Hne]; split; intros H;
      try lia; try reflexivity. congruence. }
  destruct common as [| e [| e' t]]; try discriminate.
  injection Honly as He. exists e. split; [reflexivity |].
  split; [exact He |].
  apply Forall_inv in Hmax. destruct Hmax as [(x & Hx & Hxn & Hxm) Hall].
  assert (He2 : In e2 l)
    by (eapply Permutation_in; [symmetry; exact Hperm | now left]).
  pose proof (Hall e2 He2 (eq_sym He)) as Hge.
  apply (Permutation_in _ Hperm) in Hx. destruct Hx as [<- | Hx].
  - now symmetry.
  - exfalso.
    assert (Hx1 : x = e1).
    { apply (single_sighting rest (_name e2) x e1); auto; congruence. }
    subst x. rewrite <- Hxm in Hge.
    now apply (Qlt_not_le _ _ Hlt).
Qed.

(** C1 (amended): for 2 to 4 ingredients [get_common_effects] returns one
    effect for every name carried by at least two of the effect slots it
    walks (two slots of one ingredient count), in the order in which the
    names are seen for the second time, each with the largest magnitude among
    the sightings of its name; when all slots carry distinct names the result
    is empty; and for two ingredients that carry "Fire Damage" in one slot
    each, with magnitudes 10 and 20, and whose other slots carry names that
    occur once, it is a single effect, "Fire Damage" of magnitude 20. *)
Theorem get_common_effects_confirmed (ingr : list Ingredient) :
  2 <= length ingr <= 4 ->
  exists common,
    get_common_effects ingr = Return common /\
    names common = confirm_order (names (all_effects ingr)) /\
    NoDup (names common) /\
    (forall n, In n (names common) <->
               2 <= count_occ string_dec (names (all_effects ingr)) n) /\
    Forall (max_magnitude_of (all_effects ingr)) common /\
    (NoDup (names (all_effects ingr)) -> common = []) /\
    (forall (i1 i2 : Ingredient) (c d : list Effect) (e1 e2 : Effect),
        ingr = [i1; i2] ->
        In e1 (_effects i1) -> _effects i2 = c ++ e2 :: d ->
        _name e1 = "Fire Damage"%string -> _name e2 = "Fire Damage"%string ->
        _magnitude e1 = (10 # 1)%Q -> _magnitude e2 = (20 # 1)%Q ->
        NoDup (names (_effects i1 ++ c ++ d)) ->
        exists e : Effect,
          common = [e] /\ _name e = "Fire Damage"%string /\
          _magnitude e = (20 # 1)%Q).
Proof.
  intros Hlen. exists (fst (merge_ingredients ingr)).
  pose proof (get_common_effects_in_range ingr Hlen) as Hret.
  split; [exact Hret |].
  rewrite merge_ingredients_flat in *.
  destruct (merge_effects_inv (all_effects ingr)) as [_ _ Hcn Hcm].
  assert (Hnd : NoDup (names (fst (merge_effects (all_effects ingr)))))
    by (rewrite Hcn; apply confirm_order_NoDup).
  assert (Hiff : forall n,
             In n (names (fst (merge_effects (all_effects ingr)))) <->
             2 <= count_occ string_dec (names (all_effects ingr)) n)
    by (intros n; rewrite Hcn; apply confirm_order_In).
  split; [exact Hcn |]. split; [exact Hnd |]. split; [exact Hiff |].
  split; [exact Hcm |].
  split.
  - intros Hdistinct. apply (f_equal (@length string)) in Hcn.
    rewrite (confirm_order_nil_of_NoDup _ Hdistinct) in Hcn.
    unfold names in Hcn. rewrite length_map in Hcn.
    now apply length_zero_iff_nil.
  - intros i1 i2 c d e1 e2 -> H1 H2 Hn1 Hn2 Hm1 Hm2 Hrest.
    destruct (one_shared_name (all_effects [i1; i2]) (_effects i1 ++ c ++ d)
                e1 e2 (fst (merge_effects (all_effects [i1; i2]))))
      as (e & He & Hen & Hem); auto.
    + unfold all_effects. simpl. rewrite app_nil_r, H2.
      rewrite (app_assoc (_effects i1) c (e2 :: d)).
      rewrite (app_assoc (_effects i1) c d).
      symmetry. apply Permutation_middle.
    + apply in_app_iff. now left.
    + congruence.
    + rewrite Hm1, Hm2. reflexivity.
    + exists e. rewrite He. repeat split; congruence.
Qed.

Example get_common_effects_confirmed_witness :
  let ingr :=
    [ingredient_of "Fire Salts"
       (effect_of "Fire Damage" (10 # 1) 5) (effect_of "Frost Resist" (3 # 1) 30)
       (effect_of "Restore Magicka" (2 # 1) 0) (effect_of "Slow" (1 # 1) 4);
     ingredient_of "Ember"
       (effect_of "Fire Damage" (20 # 1) 2) (effect_of "Regenerate" (1 # 2) 10)
       (effect_of "Paralysis" (1 # 1) 1) (effect_of "Fear" (1 # 1) 30)] in
  2 <= length ingr <= 4 /\
  exists common,
    get_common_effects ingr = Return common /\
    exists e : Effect,
      common = [e] /\ _name e = "Fire Damage"%string /\
      _magnitude e = (20 # 1)%Q.
Proof.
  intros ingr. split; [simpl; lia |].
  destruct (get_common_effects_confirmed ingr)
    as (common & Hret & _ & _ & _ & _ & _ & Hfire); [simpl; lia |].
  exists common. split; [exact Hret |].
  apply (Hfire (ingredient_of "Fire Salts"
                  (effect_of "Fire Damage" (10 # 1) 5)
                  (effect_of "Frost Resist" (3 # 1) 30)
                  (effect_of "Restore Magicka" (2 # 1) 0)
                  (effect_of "Slow" (1 # 1) 4))
               (ingredient_of "Ember"
                  (effect_of "Fire Damage" (20 # 1) 2)
                  (effect_of "Regenerate" (1 # 2) 10)
                  (effect_of "Paralysis" (1 # 1) 1)
                  (effect_of "Fear" (1 # 1) 30))
               []
               [effect_of "Regenerate" (1 # 2) 10;
                effect_of "Paralysis" (1 # 1) 1; effect_of "Fear" (1 # 1) 30]
               (effect_of "Fire Damage" (10 # 1) 5)
               (effect_of "Fire Damage" (20 # 1) 2));
    try reflexivity.
  - simpl. now left.
  - apply (NoDup_count_occ' string_dec). intros n Hn. simpl in Hn.
    destruct Hn as [<- | [<- | [<- | [<- | [<- | [<- | [<- | []]]]]]]];
      reflexivity.
Defined.

(** C1 as stated fails: an effect name carried twice by one ingredient and by
    no other is reported as shared. *)
Lemma get_common_effects_counts_slots :
  let fire := effect_of "Fire Damage" (1 # 1) 1 in
  let ingr :=
    [ingredient_of "Fire Salts"
       fire fire (effect_of "Frost Resist" (1 # 1) 1) (effect_of "Slow" (1 # 1) 1);
     ingredient_of "Frost Salts"
       (effect_of "Frost Damage" (1 # 1) 1) (effect_of "Fire Resist" (1 # 1) 1)
       (effect_of "Fear" (1 # 1) 1) (effect_of "Frenzy" (1 # 1) 1)] in
  get_common_effects ingr = Return [fire] /\
  carriers "Fire Damage" ingr = 1 /\
  ~ shared_by_two_ingredients ingr [fire].
Proof.
  intros fire ingr. split; [reflexivity |]. split; [reflexivity |].
  intros [Hnames _].
  assert (H : 2 <= carriers "Fire Damage" ingr).
  { apply Hnames. simpl. now left. }
  vm_compute in H. lia.
Qed.

(** At the second sighting of a name the stronger of the two effects is
    stored whole, so the stored duration is the one that came with the larger
    magnitude and need not be the larger duration. *)
Lemma promotion_takes_duration_of_stronger :
  let ingr :=
    [ingredient_of "Fire Salts"
       (effect_of "Fire Damage" (10 # 1) 100) (effect_of "Frost Resist" (1 # 1) 1)
       (effect_of "Restore Magicka" (1 # 1) 1) (effect_of "Slow" (1 # 1) 1);
     ingredient_of "Ember"
       (effect_of "Fire Damage" (20 # 1) 5) (effect_of "Regenerate" (1 # 1) 1)
       (effect_of "Paralysis" (1 # 1) 1) (effect_of "Fear" (1 # 1) 1)] in
  get_common_effects ingr = Return [effect_of "Fire Damage" (20 # 1) 5] /\
  ~ max_duration_of (all_effects ingr) (effect_of "Fire Damage" (20 # 1) 5).
Proof.
  intros ingr. split; [reflexivity |].
  intros [_ Hmax].
  specialize (Hmax (effect_of "Fire Damage" (10 # 1) 100)).
  simpl in Hmax. specialize (Hmax (or_introl eq_refl) eq_refl).
  vm_compute in Hmax. now apply Hmax.
Qed.

(** Slots that carry one and the same name in both ingredients, as slots left
    unused may, are sightings like any other: their name is reported as
    shared, here ahead of "Fire Damage". *)
Lemma repeated_filler_slots_are_shared :
  let filler := effect_of "None" (0 # 1) 0 in
  let ingr :=
    [ingredient_of "Fire Salts"
       (effect_of "Fire Damage" (10 # 1) 5) filler filler filler;
     ingredient_of "Ember"
       (effect_of "Fire Damage" (20 # 1) 2) filler filler filler] in
  get_common_effects ingr
  = Return [filler; effect_of "Fire Damage" (20 # 1) 2].
Proof. reflexivity. Qed.

(* ================================================================= *)
(** ** The order on keys *)

Section KeyOrder.

Implicit Types (a b c : string).

Lemma ascii_compare_refl (x : ascii) : Ascii.compare x x = Eq.
Proof. unfold Ascii.compare. apply N.compare_refl. Qed.

Lemma string_compare_refl a : String.compare a a = Eq.
Proof.
  induction a as [| x a IH]; simpl; [reflexivity |].
  now rewrite ascii_compare_refl.
Qed.

Lemma string_compare_trans a b c :
  String.compare a b = Lt -> String.compare b c = Lt ->
  String.compare a c = Lt.
Proof.
  revert b c. induction a as [| x a IH]; intros [| y b] [| z c]; simpl;
    try discriminate; auto.
  unfold Ascii.compare.
  destruct (N.compare_spec (N_of_ascii x) (N_of_ascii y)) as [Hxy | Hxy | Hxy];
    try discriminate;
    destruct (N.compare_spec (N_of_ascii y) (N_of_ascii z)) as [Hyz | Hyz | Hyz];
    try discriminate; intros H1 H2.
  - rewrite Hxy, Hyz, N.compare_refl. eauto.
  - rewrite Hxy. now apply N.compare_lt_iff in Hyz as ->.
  - rewrite <- Hyz. now apply N.compare_lt_iff in Hxy as ->.
  - assert (H : (N_of_ascii x < N_of_ascii z)%N) by lia.
    now apply N.compare_lt_iff in H as ->.
Qed.

Lemma ltb_irrefl a : String.ltb a a = false.
Proof. unfold String.ltb. now rewrite string_compare_refl. Qed.

Lemma ltb_trans a b c :
  String.ltb a b = true -> String.ltb b c = true -> String.ltb a c = true.
Proof.
  unfold String.ltb. intros H1 H2.
  destruct (String.compare a b) eqn:E1; try discriminate.
  destruct (String.compare b c) eqn:E2; try discriminate.
  now rewrite (string_compare_trans a b c E1 E2).
Qed.

Lemma ltb_total a b :
  String.ltb a b = false -> String.ltb b a = false -> a = b.
Proof.
  unfold String.ltb. rewrite (String.compare_antisym b a).
  destruct (String.compare a b) eqn:E; simpl; try discriminate.
  intros _ _. now apply String.compare_eq_iff.
Qed.

Lemma str_lt_neq a b : str_lt a b -> a <> b.
Proof. unfold str_lt. intros H ->. rewrite ltb_irrefl in H. discriminate. Qed.

Lemma sorted_NoDup (l : list string) : StronglySorted str_lt l -> NoDup l.
Proof.
  induction 1 as [| a l Hs IH Hall]; constructor; auto.
  intros Hin. eapply Forall_forall in Hall; eauto.
  now apply str_lt_neq in Hall.
Qed.

(** A strictly increasing list is determined by its elements. *)
Lemma sorted_unique (l1 l2 : list string) :
  StronglySorted str_lt l1 -> StronglySorted str_lt l2 ->
  (forall k, In k l1 <-> In k l2) -> l1 = l2.
Proof.
  intros H1. revert l2.
  induction H1 as [| a l1 Hs1 IH Ha]; intros l2 H2 Hiff.
  - destruct l2 as [| b l2]; [reflexivity |].
    exfalso. apply (proj2 (Hiff b)). now left.
  - inversion H2 as [| b l2' Hs2 Hb]; subst.
    + exfalso. apply (proj1 (Hiff a)). now left.
    + assert (Hab : a = b).
      { destruct (proj1 (Hiff a) (or_introl eq_refl)) as [-> | Hin1]; auto.
        destruct (proj2 (Hiff b) (or_introl eq_refl)) as [-> | Hin2]; auto.
        eapply Forall_forall in Ha; eauto.
        eapply Forall_forall in Hb; eauto.
        unfold str_lt in *.
        pose proof (ltb_trans _ _ _ Ha Hb) as Hc.
        rewrite ltb_irrefl in Hc. discriminate. }
      subst b. f_equal. apply IH; auto.
      intros k. split; intros Hk.
      * destruct (proj1 (Hiff k) (or_intror Hk)) as [<- | Hin]; auto.
        eapply Forall_forall in Ha; eauto. now apply str_lt_neq in Ha.
      * destruct (proj2 (Hiff k) (or_intror Hk)) as [<- | Hin]; auto.
        eapply Forall_forall in Hb; eauto. now apply str_lt_neq in Hb.
Qed.

End KeyOrder.

(* ================================================================= *)
(** ** IngredientCache.hpp: insertion into the ordered set *)

Section SetInsert.

Implicit Types (s : Container) (x y : Ingredient) (k : string).

Lemma In_keys s x : In x s -> In (_name x) (keys s).
Proof. intros H. unfold keys. apply in_map_iff. now exists x. Qed.

Lemma keys_In s k : In k (keys s) -> exists x, In x s /\ _name x = k.
Proof.
  unfold keys. intros H. apply in_map_iff in H.
  destruct H as (x & Hx & Hin). now exists x.
Qed.

Lemma has_key_true k x : has_key k x = true <-> _name x = k.
Proof. unfold has_key. apply String.eqb_eq. Qed.

Lemma first_with_key_None k s :
  first_with_key k s = None <-> ~ In k (keys s).
Proof.
  unfold first_with_key. split.
  - intros Hnone Hin. apply keys_In in Hin. destruct Hin as (x & Hx & Hk).
    apply (find_none _ _ Hnone) in Hx. apply has_key_true in Hk. congruence.
  - intros Hnot. destruct (find (has_key k) s) as [x |] eqn:E; auto.
    apply find_some in E. destruct E as [Hx Hk]. apply has_key_true in Hk.
    exfalso. apply Hnot. rewrite <- Hk. now apply In_keys.
Qed.

Lemma first_with_key_Some k s x :
  first_with_key k s = Some x -> In x s /\ _name x = k.
Proof.
  unfold first_with_key. intros H. apply find_some in H.
  now rewrite has_key_true in H.
Qed.

Lemma first_with_key_snoc k (l : list Ingredient) x :
  first_with_key k (l ++ [x])
  = match first_with_key k l with
    | Some e => Some e
    | None => if has_key k x then Some x else None
    end.
Proof.
  unfold first_with_key. induction l as [| y l IH]; simpl.
  - reflexivity.
  - destruct (has_key k y); auto.
Qed.

(** A rejected insertion returns the set as it was, and the iterator to the
    entry that holds the key. *)
Lemma set_insert_rejected s x s' pos :
  set_insert s x = (s', (pos, false)) ->
  s' = s /\ exists y, nth_error s pos = Some y /\ _name y = _name x.
Proof.
  revert s' pos. induction s as [| y s IH]; simpl; intros s' pos.
  - discriminate.
  - destruct (_internal.less x y) eqn:Hxy; [discriminate |].
    destruct (_internal.less y x) eqn:Hyx.
    + destruct (set_insert s x) as [s'' [p st]] eqn:E.
      intros [= <- <- ->]. destruct (IH _ _ eq_refl) as [-> Hy].
      split; [reflexivity | exact Hy].
    + intros [= <- <-]. split; [reflexivity |]. exists y. split; auto.
      symmetry. now apply ltb_total.
Qed.

(** An accepted insertion adds the new entry and nothing else, and returns
    the iterator to it. *)
Lemma set_insert_accepted s x s' pos :
  set_insert s x = (s', (pos, true)) ->
  Permutation s' (x :: s) /\ nth_error s' pos = Some x.
Proof.
  revert s' pos. induction s as [| y s IH]; simpl; intros s' pos.
  - intros [= <- <-]. auto.
  - destruct (_internal.less x y) eqn:Hxy.
    + intros [= <- <-]. auto.
    + destruct (_internal.less y x) eqn:Hyx; [| discriminate].
      destruct (set_insert s x) as [s'' [p st]] eqn:E.
      intros [= <- <- ->]. destruct (IH _ _ eq_refl) as [Hp Hn].
      split; [| exact Hn].
      rewrite Hp. apply perm_swap.
Qed.

Lemma set_insert_ordered s x :
  ordered s -> ordered (fst (set_insert s x)).
Proof.
  unfold ordered. induction s as [| y s IH]; simpl; intros Hs.
  - repeat constructor.
  - inversion Hs as [| ? ? Hs' Hy]; subst.
    destruct (_internal.less x y) eqn:Hxy.
    + simpl. constructor; [exact Hs |]. constructor; [exact Hxy |].
      eapply Forall_impl; [| exact Hy]. intros k Hk.
      unfold str_lt in *. eapply ltb_trans; eauto.
    + destruct (_internal.less y x) eqn:Hyx; [| exact Hs].
      destruct (set_insert s x) as [s'' [p [|]]] eqn:E; simpl in *.
      * constructor; [now apply IH |].
        apply set_insert_accepted in E. destruct E as [Hp _].
        apply Forall_forall. intros k Hk. apply keys_In in Hk.
        destruct Hk as (z & Hz & <-).
        apply (Permutation_in _ Hp) in Hz. destruct Hz as [<- | Hz].
        -- exact Hyx.
        -- eapply Forall_forall in Hy; [exact Hy | now apply In_keys].
      * apply set_insert_rejected in E. destruct E as [-> _]. exact Hs.
Qed.

(** After an insertion every key is held by the entry that held it before;
    the key of [x] is held by [x] only when nothing held it. *)
Lemma set_insert_first_with_key s x k :
  ordered s ->
  first_with_key k (fst (set_insert s x))
  = match first_with_key k s with
    | Some e => Some e
    | None => if has_key k x then Some x else None
    end.
Proof.
  unfold ordered, first_with_key.
  induction s as [| y s IH]; simpl; intros Hs.
  - reflexivity.
  - inversion Hs as [| ? ? Hs' Hy]; subst.
    destruct (_internal.less x y) eqn:Hxy.
    + simpl. destruct (has_key k x) eqn:Hkx;
        [| destruct (has_key k y); [reflexivity |];
           destruct (find (has_key k) s); reflexivity].
      apply has_key_true in Hkx. subst k.
      assert (Hnone : first_with_key (_name x) (y :: s) = None).
      { apply first_with_key_None. simpl. intros [H | H].
        - apply str_lt_neq in Hxy. congruence.
        - eapply Forall_forall in Hy; eauto. unfold str_lt in *.
          pose proof (ltb_trans _ _ _ Hxy Hy) as Hc.
          rewrite ltb_irrefl in Hc. discriminate. }
      unfold first_with_key in Hnone. simpl in Hnone. now rewrite Hnone.
    + destruct (_internal.less y x) eqn:Hyx.
      * destruct (set_insert s x) as [s'' [p st]] eqn:E. simpl in *.
        destruct (has_key k y); [reflexivity | now apply IH].
      * simpl. destruct (has_key k y) eqn:Hky; [reflexivity |].
        destruct (find (has_key k) s); [reflexivity |].
        destruct (has_key k x) eqn:Hkx; [| reflexivity].
        apply has_key_true in Hkx. subst k.
        assert (Heq : _name x = _name y) by now apply ltb_total.
        unfold has_key in Hky. rewrite Heq, String.eqb_refl in Hky.
        discriminate.
Qed.

(** On an ordered set the insertion is accepted exactly when no entry holds
    the key. *)
Lemma set_insert_state s x :
  ordered s ->
  snd (snd (set_insert s x)) = true <-> ~ In (_name x) (keys s).
Proof.
  intros Hs. rewrite <- first_with_key_None.
  pose proof (set_insert_ordered s x Hs) as Ho.
  destruct (set_insert s x) as [s' [pos [|]]] eqn:E; simpl in *.
  - split; [intros _ | reflexivity].
    apply set_insert_accepted in E. destruct E as [Hp _].
    apply first_with_key_None. intros Hin.
    assert (Hnd : NoDup (keys s')).
    { now apply sorted_NoDup. }
    unfold keys in Hnd.
    rewrite (Permutation_map _ Hp) in Hnd. simpl in Hnd.
    inversion Hnd; subst. contradiction.
  - split; [discriminate |]. intros Hnone. exfalso.
    apply set_insert_rejected in E. destruct E as [-> (y & Hy & Hk)].
    apply first_with_key_None in Hnone. apply Hnone. rewrite <- Hk.
    apply In_keys. eapply nth_error_In; eauto.
Qed.

End SetInsert.

(* ================================================================= *)
(** ** IngredientCache.hpp: construction of the registry *)

Section Sort.

Import IngredientCache.

Implicit Types (l : IngrList) (s : Container) (x : Ingredient) (k : string).

Lemma sort_snoc l x : sort (l ++ [x]) = sort_step (sort l) x.
Proof. unfold sort. now rewrite fold_left_app. Qed.

Lemma sort_step_fst (st : Container * N) x :
  fst (sort_step st x) = fst (set_insert (fst st) x).
Proof.
  destruct st as [s c]. unfold sort_step. simpl.
  destruct (set_insert s x) as [s' [pos [|]]]; reflexivity.
Qed.

Lemma sort_ordered l : ordered (fst (sort l)).
Proof.
  induction l as [| x l IH] using rev_ind.
  - constructor.
  - rewrite sort_snoc, sort_step_fst. now apply set_insert_ordered.
Qed.

(** Every key is held in the registry by the earliest input entry that
    has it. *)
Lemma sort_first_with_key l k :
  first_with_key k (fst (sort l)) = first_with_key k l.
Proof.
  induction l as [| x l IH] using rev_ind.
  - reflexivity.
  - rewrite sort_snoc, sort_step_fst, first_with_key_snoc, <- IH.
    apply set_insert_first_with_key, sort_ordered.
Qed.

Lemma sort_keys_In l k : In k (keys (fst (sort l))) <-> In k (keys l).
Proof.
  pose proof (first_with_key_None k (fst (sort l))) as H1.
  pose proof (first_with_key_None k l) as H2.
  rewrite sort_first_with_key in H1.
  destruct (in_dec string_dec k (keys (fst (sort l))));
    destruct (in_dec string_dec k (keys l)); tauto.
Qed.

(** A rejected insertion leaves the registry alone and bumps the counter. *)
Lemma sort_rejects l x :
  In (_name x) (keys l) ->
  sort (l ++ [x]) = (fst (sort l), incr_unsigned (snd (sort l))).
Proof.
  intros Hin. rewrite sort_snoc.
  pose proof (set_insert_state (fst (sort l)) x (sort_ordered l)) as Hst.
  rewrite sort_keys_In in Hst.
  destruct (sort l) as [s c]. unfold sort_step. simpl in *.
  destruct (set_insert s x) as [s' [pos [|]]] eqn:E; simpl in *.
  - tauto.
  - apply set_insert_rejected in E. now destruct E as [-> _].
Qed.

(** An accepted insertion adds the entry and leaves the counter alone. *)
Lemma sort_accepts l x :
  ~ In (_name x) (keys l) ->
  Permutation (fst (sort (l ++ [x]))) (x :: fst (sort l)) /\
  snd (sort (l ++ [x])) = snd (sort l).
Proof.
  intros Hin. rewrite sort_snoc.
  pose proof (set_insert_state (fst (sort l)) x (sort_ordered l)) as Hst.
  rewrite sort_keys_In in Hst.
  destruct (sort l) as [s c]. unfold sort_step. simpl in *.
  destruct (set_insert s x) as [s' [pos [|]]] eqn:E; simpl in *.
  - apply set_insert_accepted in E. now destruct E as [Hp _].
  - destruct Hst as [_ Hst]. specialize (Hst Hin). discriminate.
Qed.

(** The counter holds the number of rejected insertions, modulo the range
    of [unsigned]. *)
Lemma sort_count l :
  length (fst (sort l)) <= length l /\
  snd (sort l)
  = (N.of_nat (length l - length (fst (sort l))) mod 2 ^ 32)%N.
Proof.
  induction l as [| x l [IHle IHc]] using rev_ind.
  - split; [simpl; lia | reflexivity].
  - rewrite length_app. simpl.
    destruct (in_dec string_dec (_name x) (keys l)) as [Hin | Hnot].
    + rewrite (sort_rejects l x Hin). simpl. split; [lia |].
      rewrite IHc. unfold incr_unsigned.
      rewrite N.Div0.add_mod_idemp_l. f_equal. lia.
    + destruct (sort_accepts l x Hnot) as [Hp Hc].
      apply Permutation_length in Hp. simpl in Hp.
      rewrite Hc, Hp, IHc. split; [lia |]. f_equal. f_equal. lia.
Qed.

(** Collections with the same keys that hold each key by the same entry
    are equal. *)
Lemma same_keys_same_holders s1 s2 :
  NoDup (keys s1) -> keys s1 = keys s2 ->
  (forall k, first_with_key k s1 = first_with_key k s2) -> s1 = s2.
Proof.
  revert s2. induction s1 as [| y1 s1 IH]; intros [| y2 s2] Hnd Hk Hf;
    try discriminate; [reflexivity |].
  simpl in Hk. injection Hk as Hy Hk.
  inversion Hnd as [| ? ? Hnot Hnd']; subst.
  assert (Heq : y1 = y2).
  { specialize (Hf (_name y1)). unfold first_with_key, has_key in Hf.
    simpl in Hf. rewrite <- Hy, String.eqb_refl in Hf. congruence. }
  subst y2. f_equal. apply IH; auto.
  intros k. specialize (Hf k). unfold first_with_key in *. simpl in Hf.
  destruct (has_key k y1) eqn:Hky; [| exact Hf].
  apply has_key_true in Hky. subst k.
  transitivity (@None Ingredient); [| symmetry];
    apply first_with_key_None; [exact Hnot | now rewrite <- Hk].
Qed.

Lemma keys_permutation l l' : Permutation l l' ->
  forall k, In k (keys l) <-> In k (keys l').
Proof.
  intros Hp k. unfold keys.
  split; apply Permutation_in; [| symmetry]; now apply Permutation_map.
Qed.

Lemma single_holder s k x :
  NoDup (keys s) -> first_with_key k s = Some x ->
  filter (has_key k) s = [x].
Proof.
  unfold first_with_key.
  induction s as [| y s IH]; simpl; [discriminate |]. intros Hnd.
  inversion Hnd as [| ? ? Hnot Hnd']; subst.
  destruct (has_key k y) eqn:Hky.
  - intros [= ->]. f_equal. apply has_key_true in Hky. subst k.
    apply first_with_key_None in Hnot. unfold first_with_key in Hnot.
    clear - Hnot. induction s as [| z s IH]; simpl in *; [reflexivity |].
    destruct (has_key (_name x) z); [discriminate | auto].
  - now apply IH.
Qed.

End Sort.

(** C3 (amended): for every input list and every permutation of it, [sort]
    produces collections with the same keys in the same order and the same
    duplicate count; the collections themselves are equal when the entries of
    the input that share a key are equal records. *)
Theorem sort_permutation (l l' : IngrList) :
  Permutation l l' ->
  keys (fst (IngredientCache.sort l)) = keys (fst (IngredientCache.sort l')) /\
  snd (IngredientCache.sort l) = snd (IngredientCache.sort l') /\
  ((forall a b, In a l -> In b l -> _name a = _name b -> a = b) ->
   IngredientCache.sort l = IngredientCache.sort l').
Proof.
  intros Hp.
  assert (Hkeys : keys (fst (IngredientCache.sort l))
                  = keys (fst (IngredientCache.sort l'))).
  { apply sorted_unique; try apply sort_ordered.
    intros k. rewrite !sort_keys_In. now apply keys_permutation. }
  assert (Hcount : snd (IngredientCache.sort l) = snd (IngredientCache.sort l')).
  { destruct (sort_count l) as [_ ->]. destruct (sort_count l') as [_ ->].
    apply (f_equal (@length string)) in Hkeys. unfold keys in Hkeys.
    rewrite !length_map in Hkeys.
    now rewrite Hkeys, (Permutation_length Hp). }
  split; [exact Hkeys |]. split; [exact Hcount |].
  intros Hsame.
  assert (Hfst : fst (IngredientCache.sort l) = fst (IngredientCache.sort l')).
  { apply same_keys_same_holders; auto.
    - apply sorted_NoDup, sort_ordered.
    - intros k. rewrite !sort_first_with_key.
      destruct (first_with_key k l) as [x |] eqn:E1;
        destruct (first_with_key k l') as [x' |] eqn:E2; auto.
      + apply first_with_key_Some in E1, E2.
        destruct E1 as [Hx Hkx]. destruct E2 as [Hx' Hkx'].
        f_equal. apply Hsame; auto; [| congruence].
        eapply Permutation_in; [symmetry; exact Hp | exact Hx'].
      + exfalso. apply first_with_key_Some in E1. destruct E1 as [Hx Hkx].
        apply first_with_key_None in E2. apply E2.
        apply (keys_permutation _ _ Hp). rewrite <- Hkx. now apply In_keys.
      + exfalso. apply first_with_key_Some in E2. destruct E2 as [Hx Hkx].
        apply first_with_key_None in E1. apply E1.
        apply (keys_permutation _ _ Hp). rewrite <- Hkx. now apply In_keys. }
  destruct (IngredientCache.sort l), (IngredientCache.sort l').
  simpl in *. congruence.
Qed.

Example sort_permutation_witness :
  let fx := mkEffect (mkObject "Fire Damage") (10 # 1)%Q 5%N [] in
  let salts := mkIngredient (mkObject "Fire Salts") [fx] in
  let ember := mkIngredient (mkObject "Ember") [fx] in
  Permutation [salts; ember; salts] [ember; salts; salts] /\
  IngredientCache.sort [salts; ember; salts]
  = IngredientCache.sort [ember; salts; salts].
Proof.
  intros fx salts ember.
  assert (Hp : Permutation [salts; ember; salts] [ember; salts; salts])
    by apply perm_swap.
  split; [exact Hp |].
  destruct (sort_permutation _ _ Hp) as (_ & _ & H). apply H.
  intros a b Ha Hb Hn. simpl in Ha, Hb.
  destruct Ha as [<- | [<- | [<- | []]]]; destruct Hb as [<- | [<- | [<- | []]]];
    try reflexivity; discriminate Hn.
Defined.

(** C3 as stated fails: two records of one name, fed in either order, leave
    different entries in the collection. *)
Lemma sort_keeps_first_of_equal_keys :
  let salts m :=
    ingredient_of "Fire Salts"
      (effect_of "Fire Damage" m 5) (effect_of "Frost Resist" (1 # 1) 1)
      (effect_of "Restore Magicka" (1 # 1) 1) (effect_of "Slow" (1 # 1) 1) in
  let weak := salts (10 # 1)%Q in
  let strong := salts (20 # 1)%Q in
  Permutation [weak; strong] [strong; weak] /\
  IngredientCache.sort [weak; strong] = ([weak], 1%N) /\
  IngredientCache.sort [strong; weak] = ([strong], 1%N) /\
  fst (IngredientCache.sort [weak; strong])
  <> fst (IngredientCache.sort [strong; weak]).
Proof.
  intros salts weak strong. split; [apply perm_swap |].
  split; [reflexivity |]. split; [reflexivity |].
  vm_compute. discriminate.
Qed.

(** C6: when two entries of the input have the same key, the collection built
    by [sort] holds exactly one entry with that key, the earliest one of the
    input (so the first of the two when nothing before it has the key); the
    duplicate count is at least 1 and is the number of rejected insertions,
    each of which leaves the collection as it was and adds one to the
    counter.  The input is shorter than the range of the [unsigned]
    counter. *)
Theorem sort_drops_duplicates (p q r : list Ingredient) (a b : Ingredient) :
  let l := p ++ a :: q ++ b :: r in
  _name a = _name b ->
  (N.of_nat (length l) < 2 ^ 32)%N ->
  exists first,
    first_with_key (_name a) l = Some first /\
    filter (has_key (_name a)) (fst (IngredientCache.sort l)) = [first] /\
    (~ In (_name a) (keys p) -> first = a) /\
    (1 <= snd (IngredientCache.sort l))%N /\
    snd (IngredientCache.sort l)
    = N.of_nat (length l - length (fst (IngredientCache.sort l))) /\
    (forall (pre : IngrList) (x : Ingredient), In (_name x) (keys pre) ->
       IngredientCache.sort (pre ++ [x])
       = (fst (IngredientCache.sort pre),
          incr_unsigned (snd (IngredientCache.sort pre)))).
Proof.
  intros l Hab Hlen.
  assert (Hin : In (_name a) (keys l)).
  { apply In_keys. unfold l. apply in_elt. }
  destruct (first_with_key (_name a) l) as [first |] eqn:Hfirst;
    [| apply first_with_key_None in Hfirst; contradiction].
  exists first. split; [reflexivity |].
  split.
  { apply single_holder; [apply sorted_NoDup, sort_ordered |].
    now rewrite sort_first_with_key. }
  split.
  { intros Hp. unfold l, first_with_key in Hfirst.
    apply first_with_key_None in Hp. unfold first_with_key in Hp.
    clear - Hp Hfirst. induction p as [| y p IH]; simpl in *.
    - unfold has_key in Hfirst. rewrite String.eqb_refl in Hfirst. congruence.
    - destruct (has_key (_name a) y); [discriminate | auto]. }
  assert (Hshort : length (fst (IngredientCache.sort l)) < length l).
  { assert (Hincl : incl (keys (fst (IngredientCache.sort l)))
                         (keys (p ++ a :: q ++ r))).
    { intros k Hk. apply (proj1 (sort_keys_In _ _)) in Hk.
      unfold l, keys in Hk |- *.
      repeat (rewrite ?map_app, ?in_app_iff in Hk; simpl in Hk).
      repeat (rewrite ?map_app, ?in_app_iff; simpl).
      rewrite <- Hab in Hk. tauto. }
    apply NoDup_incl_length in Hincl; [| apply sorted_NoDup, sort_ordered].
    unfold keys in Hincl. rewrite !length_map in Hincl.
    unfold l in *. repeat (rewrite ?length_app in Hincl; simpl in Hincl).
    repeat (rewrite ?length_app; simpl). lia. }
  destruct (sort_count l) as [_ Hc].
  rewrite N.mod_small in Hc by lia.
  split; [rewrite Hc; lia |]. split; [exact Hc |].
  intros pre x. apply sort_rejects.
Qed.

Example sort_drops_duplicates_witness :
  let weak := mkIngredient (mkObject "Fire Salts")
                [mkEffect (mkObject "Fire Damage") (10 # 1)%Q 5%N []] in
  let strong := mkIngredient (mkObject "Fire Salts")
                  [mkEffect (mkObject "Fire Damage") (20 # 1)%Q 5%N []] in
  let ember := mkIngredient (mkObject "Ember") [] in
  let l := [] ++ weak :: [ember] ++ strong :: [] in
  _name weak = _name strong /\
  (N.of_nat (length l) < 2 ^ 32)%N /\
  filter (has_key "Fire Salts") (fst (IngredientCache.sort l)) = [weak] /\
  snd (IngredientCache.sort l) = 1%N.
Proof.
  intros weak strong ember l.
  assert (Hn : _name weak = _name strong) by reflexivity.
  assert (Hl : (N.of_nat (length l) < 2 ^ 32)%N) by (vm_compute; reflexivity).
  split; [exact Hn |]. split; [exact Hl |].
  destruct (sort_drops_duplicates [] [ember] [] weak strong Hn Hl)
    as (first & Hf & Hfilter & Hfirst & _ & Hc & _).
  rewrite (Hfirst (fun H => H)) in Hfilter.
  split; [exact Hfilter |]. etransitivity; [exact Hc | reflexivity].
Defined.

(* ================================================================= *)
(** ** Substring search *)

Section StringFind.

Implicit Types (s pat pre post : string).

Local Open Scope string_scope.

Lemma prefix_iff pat s :
  String.prefix pat s = true <-> exists post, s = pat ++ post.
Proof.
  revert s. induction pat as [| c pat IH]; intros s.
  - split; [intros _; now exists s | intros _; now destruct s].
  - destruct s as [| d s]; simpl.
    + split; [discriminate | intros [post H]; discriminate].
    + destruct (ascii_dec c d) as [-> | Hne].
      * rewrite IH. split; intros [post H]; exists post; congruence.
      * split; [discriminate | intros [post H]; congruence].
Qed.

Lemma string_find_Some s pat k :
  string_find s pat = Some k ->
  exists pre post, s = pre ++ pat ++ post /\ String.length pre = k.
Proof.
  revert k. induction s as [| c s IH]; intros k; cbn [string_find].
  - destruct (String.prefix pat EmptyString) eqn:Hp; [| discriminate].
    intros [= <-]. apply prefix_iff in Hp. destruct Hp as [post Hp].
    exists EmptyString, post. auto.
  - destruct (String.prefix pat (String c s)) eqn:Hp.
    + intros [= <-]. apply prefix_iff in Hp. destruct Hp as [post Hp].
      exists EmptyString, post. auto.
    + destruct (string_find s pat) as [k' |]; [| discriminate].
      intros [= <-]. destruct (IH k' eq_refl) as (pre & post & -> & Hl).
      exists (String c pre), post. simpl. auto.
Qed.

Lemma string_find_None s pat : string_find s pat = None -> ~ occurs_in pat s.
Proof.
  induction s as [| c s IH]; cbn [string_find].
  - destruct (String.prefix pat EmptyString) eqn:Hp; [discriminate |].
    intros _ (pre & post & H). destruct pre; [| discriminate].
    assert (Ht : String.prefix pat EmptyString = true)
      by (apply prefix_iff; now exists post).
    congruence.
  - destruct (String.prefix pat (String c s)) eqn:Hp; [discriminate |].
    destruct (string_find s pat); [discriminate |].
    intros _ (pre & post & H). destruct pre as [| d pre]; simpl in H.
    + assert (Ht : String.prefix pat (String c s) = true)
        by (apply prefix_iff; now exists post).
      congruence.
    + injection H as _ H. apply IH; [reflexivity |]. now exists pre, post.
Qed.

Lemma string_find_empty s : string_find s EmptyString = Some 0.
Proof. destruct s; reflexivity. Qed.

Lemma string_length_app s1 s2 :
  String.length (s1 ++ s2) = String.length s1 + String.length s2.
Proof. induction s1; simpl; auto. Qed.

(** [s.find(pat) < s.size()]: [pat] occurs in [s], and [s] is not empty. *)
Lemma found_in_iff s pat :
  RegistryType.found_in s pat = true <-> occurs_in pat s /\ s <> EmptyString.
Proof.
  unfold RegistryType.found_in, pos_lt.
  destruct (string_find s pat) as [k |] eqn:E.
  - pose proof (string_find_Some _ _ _ E) as (pre & post & Hs & Hk).
    rewrite Nat.ltb_lt. split.
    + intros Hlt. split; [now exists pre, post |].
      intros ->. simpl in Hlt. lia.
    + intros [_ Hne]. destruct pat as [| c pat].
      * rewrite string_find_empty in E. injection E as <-.
        destruct s; [congruence | simpl; lia].
      * subst s. rewrite !string_length_app. simpl. lia.
  - split; [discriminate |]. intros [Hocc _].
    now apply string_find_None in E.
Qed.

Lemma occurs_in_refl s : occurs_in s s.
Proof.
  exists EmptyString, EmptyString. simpl. induction s as [| c s IH]; simpl; congruence.
Qed.

End StringFind.

(* ================================================================= *)
(** ** Format.hpp: the match predicate *)

(** C8 (amended): in exact mode [match] is true iff the candidate equals the
    term, and in partial mode iff the term occurs within the candidate as it
    is written; [match] lowers neither argument.  [match("giant's toe",
    "toe")] is true in partial mode and false in exact mode, and
    [match("toe", "toe")] is true in both. *)
Theorem match_spec (fmt : OutputFormat) (candidate term : string) :
  (_flag_exact fmt = true ->
   (OutputFormat_.match_ fmt candidate term = true <-> candidate = term)) /\
  (_flag_exact fmt = false ->
   (OutputFormat_.match_ fmt candidate term = true <->
    occurs_in term candidate)) /\
  OutputFormat_.match_ fmt "giant's toe" "toe" = negb (_flag_exact fmt) /\
  OutputFormat_.match_ fmt "toe" "toe" = true.
Proof.
  unfold OutputFormat_.match_.
  split; [| split; [| split]].
  - intros ->. apply String.eqb_eq.
  - intros ->. split.
    + intros Hm. apply orb_true_iff in Hm. destruct Hm as [Hm | Hm].
      * apply String.eqb_eq in Hm. subst. apply occurs_in_refl.
      * change (RegistryType.found_in candidate term = true) in Hm.
        now apply found_in_iff in Hm.
    + intros Hocc. apply orb_true_iff.
      destruct (String.eqb_spec candidate term) as [Heq | Hne]; [now left |].
      right. change (RegistryType.found_in candidate term = true).
      apply found_in_iff. split; [exact Hocc |].
      intros ->. destruct Hocc as (pre & post & Hs).
      destruct pre; [| discriminate].
      destruct term; [congruence | discriminate].
  - destruct (_flag_exact fmt); reflexivity.
  - destruct (_flag_exact fmt); reflexivity.
Qed.

Example match_spec_witness :
  _flag_exact (format_with false false) = false /\
  (OutputFormat_.match_ (format_with false false) "frost salts" "salt" = true
   <-> occurs_in "salt" "frost salts").
Proof.
  split; [reflexivity |].
  destruct (match_spec (format_with false false) "frost salts" "salt")
    as (_ & H & _).
  apply H. reflexivity.
Defined.

(** C8 as stated fails: in partial mode a term that occurs in the candidate
    only up to case is not matched. *)
Lemma match_is_case_sensitive :
  occurs_in_nocase "toe" "Giant's Toe" /\
  OutputFormat_.match_ (format_with false false) "Giant's Toe" "toe" = false.
Proof.
  split; [| reflexivity].
  exists "giant's "%string, EmptyString. reflexivity.
Qed.

(* ================================================================= *)
(** ** Format.hpp: effect filtering *)

Section EffectFiltering.

Variable fmt : OutputFormat.
Variable terms : list string.

Implicit Types (arr vec : list Effect).

Lemma vectorize_effects_loop arr vec :
  fold_left
    (fun (vec : list Effect) (fx : Effect) =>
       if negb (_flag_quiet fmt) then vec ++ [fx]
       else
         let name := str.tolower (_name fx) in
         if existsb (fun search_str => OutputFormat_.match_ fmt name search_str)
                    terms
         then vec ++ [fx]
         else vec)
    arr vec
  = vec ++ (if _flag_quiet fmt then filter (qualifies fmt terms) arr else arr).
Proof.
  revert vec. induction arr as [| fx arr IH]; intros vec; simpl.
  - destruct (_flag_quiet fmt); now rewrite app_nil_r.
  - rewrite IH.
    change (existsb (fun n : string =>
                      OutputFormat_.match_ fmt (str.tolower (_name fx)) n) terms)
      with (qualifies fmt terms fx).
    destruct (_flag_quiet fmt); simpl.
    + destruct (qualifies fmt terms fx);
        [now rewrite <- app_assoc | reflexivity].
    + now rewrite <- app_assoc.
Qed.

Lemma get_fx_loop_loud arr vec :
  _flag_quiet fmt = false ->
  Format.get_fx_loop fmt arr terms vec = vec ++ arr.
Proof.
  intros Hq. revert vec. induction arr as [| fx arr IH]; intros vec; simpl.
  - now rewrite app_nil_r.
  - rewrite Hq. simpl. rewrite IH. now rewrite <- app_assoc.
Qed.

Lemma get_fx_loop_partial arr vec :
  _flag_quiet fmt = true -> _flag_exact fmt = false ->
  Format.get_fx_loop fmt arr terms vec = vec ++ filter (qualifies fmt terms) arr.
Proof.
  intros Hq He. revert vec.
  induction arr as [| fx arr IH]; intros vec; simpl.
  - now rewrite app_nil_r.
  - rewrite Hq, He. simpl.
    change (existsb (fun n : string =>
                      OutputFormat_.match_ fmt (str.tolower (_name fx)) n) terms)
      with (qualifies fmt terms fx).
    destruct (qualifies fmt terms fx); rewrite IH;
      [now rewrite <- app_assoc | reflexivity].
Qed.

Lemma get_fx_loop_exact arr vec :
  _flag_quiet fmt = true -> _flag_exact fmt = true ->
  Format.get_fx_loop fmt arr terms vec = vec ++ first_qualifying fmt terms arr.
Proof.
  intros Hq He. revert vec. unfold first_qualifying.
  induction arr as [| fx arr IH]; intros vec; simpl.
  - now rewrite app_nil_r.
  - rewrite Hq, He. simpl.
    change (existsb (fun n : string =>
                      OutputFormat_.match_ fmt (str.tolower (_name fx)) n) terms)
      with (qualifies fmt terms fx).
    destruct (qualifies fmt terms fx); [reflexivity | apply IH].
Qed.

End EffectFiltering.

(** C7 (amended): with quiet mode off [vectorize_effects] and [get_fx] emit
    all effects.  With quiet mode on [vectorize_effects] emits exactly the
    effects whose lowered name matches at least one search term, in exact
    mode too, and so does [get_fx] when exact mode is off.  With quiet and
    exact mode on [get_fx] emits the first such effect and stops. *)
Theorem effect_filtering (fmt : OutputFormat) (arr : list Effect)
  (terms : list string) :
  (_flag_quiet fmt = false ->
   Formatter.vectorize_effects fmt arr terms = arr /\
   Format.get_fx fmt arr terms = arr) /\
  (_flag_quiet fmt = true ->
   Formatter.vectorize_effects fmt arr terms
   = filter (qualifies fmt terms) arr) /\
  (_flag_quiet fmt = true -> _flag_exact fmt = false ->
   Format.get_fx fmt arr terms = filter (qualifies fmt terms) arr) /\
  (_flag_quiet fmt = true -> _flag_exact fmt = true ->
   Format.get_fx fmt arr terms = first_qualifying fmt terms arr /\
   length (Format.get_fx fmt arr terms) <= 1).
Proof.
  unfold Formatter.vectorize_effects, Format.get_fx.
  rewrite vectorize_effects_loop. simpl.
  split; [| split; [| split]].
  - intros Hq. rewrite Hq. split; [reflexivity |].
    now rewrite get_fx_loop_loud.
  - intros Hq. now rewrite Hq.
  - intros Hq He. now rewrite get_fx_loop_partial.
  - intros Hq He. rewrite get_fx_loop_exact by assumption. simpl.
    split; [reflexivity |]. unfold first_qualifying.
    destruct (find _ arr); simpl; lia.
Qed.

Example effect_filtering_witness :
  let fx n := effect_of n (1 # 1) 1 in
  let arr := [fx "Fire Damage"; fx "Frost Damage"; fx "Slow"; fx "Fear"]%string in
  let terms := ["fire damage"; "frost damage"]%string in
  _flag_quiet (format_with true true) = true /\
  _flag_exact (format_with true true) = true /\
  Format.get_fx (format_with true true) arr terms = [fx "Fire Damage"%string].
Proof.
  intros fx arr terms. split; [reflexivity |]. split; [reflexivity |].
  destruct (effect_filtering (format_with true true) arr terms)
    as (_ & _ & _ & H).
  destruct (H eq_refl eq_refl) as [-> _]. reflexivity.
Defined.

(** C7 as stated fails: with quiet and exact mode on [vectorize_effects] goes
    on after the first qualifying effect and emits the second one too. *)
Lemma vectorize_effects_does_not_stop :
  let fx n := effect_of n (1 # 1) 1 in
  let arr := [fx "Fire Damage"; fx "Frost Damage"; fx "Slow"; fx "Fear"]%string in
  let terms := ["fire damage"; "frost damage"]%string in
  first_qualifying (format_with true true) terms arr = [fx "Fire Damage"%string] /\
  Formatter.vectorize_effects (format_with true true) arr terms
  = [fx "Fire Damage"; fx "Frost Damage"]%string /\
  Formatter.vectorize_effects (format_with true true) arr terms
  <> first_qualifying (format_with true true) terms arr.
Proof.
  intros fx arr terms. split; [reflexivity |]. split; [reflexivity |].
  vm_compute. discriminate.
Qed.

(* ================================================================= *)
(** ** IngredientCache.hpp: linear search *)

Section FindIf.

Context {A : Type} (p : A -> bool).

Implicit Types (c rest : list A) (first : nat).

Lemma find_if_loop_index rest first :
  IngredientCache.find_if_loop p rest first = first + index_of p rest.
Proof.
  revert first. induction rest as [| x rest IH]; intros first; simpl.
  - lia.
  - destruct (p x); [lia |]. rewrite IH. lia.
Qed.

Lemma index_of_le rest : index_of p rest <= length rest.
Proof.
  induction rest as [| x rest IH]; simpl; [lia |].
  destruct (p x); lia.
Qed.

Lemma index_of_before rest k x :
  k < index_of p rest -> nth_error rest k = Some x -> p x = false.
Proof.
  revert k. induction rest as [| y rest IH]; intros k; simpl; [lia |].
  destruct (p y) eqn:Hy; [lia |].
  destruct k as [| k]; simpl.
  - intros _ [= <-]. exact Hy.
  - intros Hk. apply IH. lia.
Qed.

Lemma index_of_at rest :
  index_of p rest < length rest ->
  exists x, nth_error rest (index_of p rest) = Some x /\ p x = true.
Proof.
  induction rest as [| y rest IH]; simpl; [lia |].
  destruct (p y) eqn:Hy.
  - intros _. now exists y.
  - intros Hlt. apply IH. lia.
Qed.

Lemma index_of_none rest :
  existsb p rest = false -> index_of p rest = length rest.
Proof.
  induction rest as [| y rest IH]; simpl; [reflexivity |].
  destruct (p y); simpl; [discriminate |]. intros H. now rewrite IH.
Qed.

Lemma index_of_some rest :
  existsb p rest = true -> index_of p rest < length rest.
Proof.
  induction rest as [| y rest IH]; simpl; [discriminate |].
  destruct (p y); simpl; [lia |]. intros H. apply IH in H. lia.
Qed.

(** [find_if] returns the first position from [first] on whose element
    passes [p], and the end when there is none. *)
Lemma find_if_first c first :
  first <= length c ->
  let r := IngredientCache.find_if c first p in
  first <= r <= length c /\
  (forall k x, first <= k < r -> nth_error c k = Some x -> p x = false) /\
  (r < length c -> exists x, nth_error c r = Some x /\ p x = true).
Proof.
  intros Hle. unfold IngredientCache.find_if.
  rewrite find_if_loop_index. simpl.
  pose proof (index_of_le (skipn first c)) as Hi.
  rewrite length_skipn in Hi.
  split; [lia |]. split.
  - intros k x [Hk1 Hk2] Hx.
    apply (index_of_before (skipn first c) (k - first)); [lia |].
    rewrite nth_error_skipn. now replace (first + (k - first)) with k by lia.
  - intros Hlt.
    destruct (index_of_at (skipn first c)) as (x & Hx & Hp).
    + rewrite length_skipn. lia.
    + exists x. split; [| exact Hp]. now rewrite nth_error_skipn in Hx.
Qed.

End FindIf.

(** C9 (amended): from a start position inside the registry, [get] returns
    the first entry at or after it that passes the test, and the end of the
    collection when none does.  With [only_effects] false the test is that
    the ingredient name equals the query, case included; with [only_effects]
    true it is that some effect has a lowered name for which the predicate
    holds against the query as it was passed: [get] does not lower the query,
    and the two readings agree when the query is in lower case already. *)
Theorem get_first_match (pred : string -> string -> bool) (_ingr : Container)
  (name : string) (off : nat) (only_effects : bool) :
  off <= length _ingr ->
  let r := IngredientCache.get pred _ingr name off only_effects in
  off <= r <= length _ingr /\
  (forall k x, off <= k < r -> nth_error _ingr k = Some x ->
               get_hit pred name only_effects x = false) /\
  (r < length _ingr ->
   exists x, nth_error _ingr r = Some x /\
             get_hit pred name only_effects x = true) /\
  (r = length _ingr <->
   forall k x, off <= k -> nth_error _ingr k = Some x ->
               get_hit pred name only_effects x = false) /\
  (str.tolower name = name ->
   forall x, get_hit pred name only_effects x
             = get_hit_lowered pred name only_effects x).
Proof.
  intros Hoff r.
  destruct (find_if_first (get_hit pred name only_effects) _ingr off Hoff)
    as (Hr & Hbefore & Hat).
  change (IngredientCache.find_if _ingr off (get_hit pred name only_effects))
    with r in Hr, Hbefore, Hat.
  split; [exact Hr |]. split; [exact Hbefore |]. split; [exact Hat |].
  split.
  - split.
    + intros Hend k x Hk Hx. apply (Hbefore k x); [| exact Hx].
      split; [exact Hk |]. rewrite Hend.
      apply nth_error_Some. congruence.
    + intros Hnone.
      destruct (Nat.eq_dec r (length _ingr)) as [Heq | Hne]; [exact Heq |].
      destruct Hat as (x & Hx & Hp); [lia |].
      rewrite (Hnone r x) in Hp; [discriminate | lia | exact Hx].
  - intros Hlow x. unfold get_hit, get_hit_lowered. now rewrite Hlow.
Qed.

Example get_first_match_witness :
  let fx n := mkEffect (mkObject n) (1 # 1)%Q 1%N [] in
  let reg := [mkIngredient (mkObject "Ash") [fx "Regenerate"%string];
              mkIngredient (mkObject "Ember") [fx "Fire Damage"%string];
              mkIngredient (mkObject "Fire Salts") [fx "Fire Damage"%string]] in
  let pred := OutputFormat_.match_ (format_with false false) in
  1 <= length reg /\
  IngredientCache.get pred reg "fire" 1 true = 1 /\
  IngredientCache.get pred reg "Fire Salts" 1 false = 2 /\
  exists x, nth_error reg 1 = Some x /\ get_hit pred "fire" true x = true.
Proof.
  intros fx reg pred.
  assert (Hoff : 1 <= length reg) by (simpl; lia).
  split; [exact Hoff |]. split; [reflexivity |]. split; [reflexivity |].
  destruct (get_first_match pred reg "fire" 1 true Hoff) as (_ & _ & Hat & _).
  apply Hat. vm_compute. lia.
Defined.

(** C9 as stated fails: an effect name that matches the lowered query is not
    found when the query is passed with an upper-case letter. *)
Lemma get_does_not_lower_query :
  let ember :=
    ingredient_of "Ember"
      (effect_of "Fire Damage" (1 # 1) 1) (effect_of "Regenerate" (1 # 1) 1)
      (effect_of "Paralysis" (1 # 1) 1) (effect_of "Fear" (1 # 1) 1) in
  let pred := OutputFormat_.match_ (format_with false false) in
  get_hit_lowered pred "Fire" true ember = true /\
  IngredientCache.get pred [ember] "Fire" 0 true = length [ember].
Proof. split; reflexivity. Qed.

(* ================================================================= *)
(** ** IngredientCache.hpp: best-fit search *)

Section BestFit.

Import RegistryType.

Variable name : string.

Implicit Types (rest : list Ingredient) (it : nat) (vec : list nat).

Lemma scan_effects_spec it (fxs : list Effect) vec :
  scan_effects name it fxs vec
  = if existsb (fun fx : Effect => lowered_is name fx) fxs then None
    else Some (vec ++ repeat it
                 (length (filter (fun fx : Effect => lowered_has name fx) fxs))).
Proof.
  revert vec. induction fxs as [| fx fxs IH]; intros vec; simpl.
  - now rewrite app_nil_r.
  - unfold lowered_is at 1, lowered_has at 1.
    destruct (String.eqb (str.tolower (_name fx)) name); [reflexivity |].
    simpl.
    destruct (found_in (str.tolower (_name fx)) name); simpl; rewrite IH.
    + destruct (existsb _ fxs); [reflexivity |].
      now rewrite <- app_assoc.
    + reflexivity.
Qed.

Lemma loop_INGR_spec rest it vec :
  loop_INGR name rest it vec
  = if existsb (exact_hit INGR name) rest
    then inl (it + index_of (exact_hit INGR name) rest)
    else inr (vec ++ collected INGR name rest it).
Proof.
  revert it vec. induction rest as [| i rest IH]; intros it vec; simpl.
  - now rewrite app_nil_r.
  - unfold lowered_is, lowered_has.
    destruct (String.eqb (str.tolower (_name i)) name); simpl.
    + f_equal. lia.
    + destruct (found_in (str.tolower (_name i)) name); rewrite IH;
        destruct (existsb _ rest); simpl;
        try (f_equal; lia); now rewrite <- ?app_assoc.
Qed.

Lemma loop_BOTH_spec rest it vec :
  loop_BOTH name rest it vec
  = if existsb (exact_hit BOTH name) rest
    then inl (it + index_of (exact_hit BOTH name) rest)
    else inr (vec ++ collected BOTH name rest it).
Proof.
  revert it vec. induction rest as [| i rest IH]; intros it vec; simpl.
  - now rewrite app_nil_r.
  - change (String.eqb (str.tolower (_name i)) name) with (lowered_is name i).
    change (found_in (str.tolower (_name i)) name) with (lowered_has name i).
    destruct (lowered_is name i); simpl.
    + f_equal. lia.
    + destruct (lowered_has name i); simpl.
      * rewrite IH. destruct (existsb _ rest); simpl;
          [f_equal; lia | now rewrite <- app_assoc].
      * rewrite scan_effects_spec. unfold fx_is.
        destruct (existsb _ (_effects i)); simpl; [f_equal; lia |].
        rewrite IH. destruct (existsb _ rest); simpl;
          [f_equal; lia | now rewrite <- app_assoc].
Qed.

Lemma loop_EFFECT_spec rest it vec :
  loop_EFFECT name rest it vec
  = if existsb (exact_hit EFFECT name) rest
    then inl (it + index_of (exact_hit EFFECT name) rest)
    else inr (vec ++ collected EFFECT name rest it).
Proof.
  revert it vec. induction rest as [| i rest IH]; intros it vec; simpl.
  - now rewrite app_nil_r.
  - rewrite scan_effects_spec. unfold fx_is.
    destruct (existsb _ (_effects i)); simpl; [f_equal; lia |].
    rewrite IH. destruct (existsb _ rest); simpl;
      [f_equal; lia | now rewrite <- app_assoc].
Qed.

Lemma candidate_pushes search (i : Ingredient) :
  candidate search name i = (0 <? pushes search name i).
Proof.
  assert (Hfx : fx_has name i
                = (0 <? length (filter (fun fx : Effect => lowered_has name fx)
                                       (_effects i)))).
  { unfold fx_has. induction (_effects i) as [| fx fxs IH]; simpl; auto.
    destruct (lowered_has name fx); simpl; auto. }
  destruct search; simpl; rewrite ?Hfx; destruct (lowered_has name i);
    reflexivity.
Qed.

(** The front of the collected vector is the first candidate. *)
Lemma collected_front search rest it :
  match collected search name rest it with
  | [] => it + length rest
  | front :: _ => front
  end = it + index_of (candidate search name) rest.
Proof.
  revert it. induction rest as [| i rest IH]; intros it; simpl; [lia |].
  rewrite candidate_pushes.
  destruct (pushes search name i) as [| n]; simpl; [| lia].
  specialize (IH (S it)).
  destruct (collected search name rest (S it)); lia.
Qed.

Lemma find_best_fit_best_fit (reg : Container) (search : FindType) :
  find_best_fit reg name search = best_fit search name reg.
Proof.
  unfold find_best_fit, best_fit.
  pose proof (collected_front search reg 0) as Hfront. simpl in Hfront.
  destruct search;
    rewrite ?loop_INGR_spec, ?loop_BOTH_spec, ?loop_EFFECT_spec;
    destruct (existsb _ reg); simpl; auto.
Qed.

End BestFit.

Lemma index_of_first {A : Type} (p : A -> bool) (l : list A) (k : nat) (x : A) :
  nth_error l k = Some x -> p x = true ->
  (forall j y, j < k -> nth_error l j = Some y -> p y = false) ->
  index_of p l = k /\ existsb p l = true.
Proof.
  revert k. induction l as [| z l IH]; intros k Hx Hp Hbefore.
  - destruct k; discriminate.
  - simpl. destruct k as [| k]; simpl in Hx.
    + injection Hx as ->. rewrite Hp. auto.
    + rewrite (Hbefore 0 z) by (simpl; auto; lia). simpl.
      destruct (IH k Hx Hp) as [-> ->]; auto.
      intros j y Hj Hy. apply (Hbefore (S j) y); [lia | exact Hy].
Qed.

Lemma nothing_contains (reg : Container) (name : string)
  (search : RegistryType.FindType) :
  (forall x : Ingredient, In x reg ->
     ~ occurs_in name (str.tolower (_name x)) /\
     forall fx : Effect, In fx (_effects x) ->
       ~ occurs_in name (str.tolower (_name fx))) ->
  existsb (exact_hit search name) reg = false /\
  existsb (candidate search name) reg = false.
Proof.
  intros Hnone.
  assert (Hentry : forall x : Ingredient, In x reg ->
            lowered_is name x = false /\ lowered_has name x = false /\
            fx_is name x = false /\ fx_has name x = false).
  { intros x Hx. destruct (Hnone x Hx) as [Hkey Hfx].
    assert (His : forall o : ObjectBase,
              ~ occurs_in name (str.tolower (_name o)) ->
              lowered_is name o = false /\ lowered_has name o = false).
    { intros o Ho. unfold lowered_is, lowered_has. split.
      - apply String.eqb_neq. intros Heq. apply Ho. rewrite Heq.
        apply occurs_in_refl.
      - apply not_true_is_false. intros Hf. apply found_in_iff in Hf. tauto. }
    destruct (His x Hkey) as [H1 H2]. repeat split; auto.
    - unfold fx_is. apply not_true_is_false. intros He.
      apply existsb_exists in He. destruct He as (fx & Hin & Hfxis).
      destruct (His fx (Hfx fx Hin)). congruence.
    - unfold fx_has. apply not_true_is_false. intros He.
      apply existsb_exists in He. destruct He as (fx & Hin & Hfxhas).
      destruct (His fx (Hfx fx Hin)). congruence. }
  split; apply not_true_is_false; intros He; apply existsb_exists in He;
    destruct He as (x & Hx & Hhit);
    destruct (Hentry x Hx) as (H1 & H2 & H3 & H4);
    destruct search; simpl in Hhit; rewrite ?H1, ?H2, ?H3, ?H4 in Hhit;
    discriminate.
Qed.

(** C5 (amended): for every registry, query and scope [find_best_fit] returns
    an iterator of the registry or its end, never throwing: the first entry
    that is an exact hit for the scope, found at once; without an exact hit
    the first collected candidate in registry order; the end when no lowered
    entry name or effect name contains the query.  In scope INGR, the
    default, the exact hit is the first entry whose lowered key equals the
    query.  In scope BOTH an entry whose key does not contain the query and
    which has a lowered effect name equal to it is an exact hit too, and in
    scope EFFECT only effect names are compared. *)
Theorem find_best_fit_spec (reg : Container) (name : string)
  (search : RegistryType.FindType) :
  RegistryType.find_best_fit reg name search <= length reg /\
  RegistryType.find_best_fit reg name search = best_fit search name reg /\
  (forall k (x : Ingredient),
      nth_error reg k = Some x -> str.tolower (_name x) = name ->
      (forall j (y : Ingredient), j < k -> nth_error reg j = Some y ->
                                  str.tolower (_name y) <> name) ->
      RegistryType.find_best_fit reg name RegistryType.INGR = k) /\
  (existsb (exact_hit search name) reg = true ->
   RegistryType.find_best_fit reg name search
   = index_of (exact_hit search name) reg) /\
  (existsb (exact_hit search name) reg = false ->
   RegistryType.find_best_fit reg name search
   = index_of (candidate search name) reg) /\
  ((forall x : Ingredient, In x reg ->
      ~ occurs_in name (str.tolower (_name x)) /\
      forall fx : Effect, In fx (_effects x) ->
        ~ occurs_in name (str.tolower (_name fx))) ->
   RegistryType.find_best_fit reg name search = length reg).
Proof.
  rewrite !find_best_fit_best_fit.
  split; [| split; [reflexivity | split; [| split; [| split]]]].
  - unfold best_fit. destruct (existsb _ reg); apply index_of_le.
  - intros k x Hx Hname Hbefore. unfold best_fit.
    destruct (index_of_first (exact_hit RegistryType.INGR name) reg k x Hx)
      as [Hi He].
    + simpl. unfold lowered_is. now apply String.eqb_eq.
    + intros j y Hj Hy. simpl. unfold lowered_is. apply String.eqb_neq.
      now apply (Hbefore j y).
    + now rewrite He.
  - intros He. unfold best_fit. now rewrite He.
  - intros He. unfold best_fit. now rewrite He.
  - intros Hnone. unfold best_fit.
    destruct (nothing_contains reg name search Hnone) as [-> Hc].
    now apply index_of_none.
Qed.

Example find_best_fit_spec_witness :
  let fx n := mkEffect (mkObject n) (1 # 1)%Q 1%N [] in
  let reg := [mkIngredient (mkObject "Giant's Toe") [fx "Fortify Health"%string];
              mkIngredient (mkObject "Toe") [fx "Regenerate"%string];
              mkIngredient (mkObject "Toenail") [fx "Regenerate"%string]] in
  nth_error reg 1 = Some (mkIngredient (mkObject "Toe") [fx "Regenerate"%string]) /\
  RegistryType.find_best_fit reg "toe" RegistryType.INGR = 1 /\
  RegistryType.find_best_fit reg "oe" RegistryType.INGR = 0 /\
  RegistryType.find_best_fit reg "salt" RegistryType.BOTH = length reg.
Proof.
  intros fx reg. split; [reflexivity |].
  destruct (find_best_fit_spec reg "toe" RegistryType.INGR)
    as (_ & _ & Hexact & _).
  split; [| split; reflexivity].
  apply (Hexact 1 (mkIngredient (mkObject "Toe") [fx "Regenerate"%string]));
    [reflexivity | reflexivity |].
  intros j y Hj Hy. destruct j as [| j]; [| lia].
  injection Hy as <-. discriminate.
Defined.

(** C5 as stated fails: in the scopes that look at effects an entry that
    comes earlier and has an effect named like the query is returned instead
    of the entry whose lowered key equals the query. *)
Lemma find_best_fit_prefers_effect_hit :
  let reg :=
    [ingredient_of "Ash"
       (effect_of "Toe" (1 # 1) 1) (effect_of "Regenerate" (1 # 1) 1)
       (effect_of "Paralysis" (1 # 1) 1) (effect_of "Fear" (1 # 1) 1);
     ingredient_of "Toe"
       (effect_of "Fire Damage" (1 # 1) 1) (effect_of "Frost Resist" (1 # 1) 1)
       (effect_of "Restore Magicka" (1 # 1) 1) (effect_of "Slow" (1 # 1) 1)] in
  ordered reg /\
  index_of (fun i : Ingredient => String.eqb (str.tolower (_name i)) "toe")
           reg = 1 /\
  RegistryType.find_best_fit reg "toe" RegistryType.BOTH = 0 /\
  RegistryType.find_best_fit reg "toe" RegistryType.EFFECT = 0.
Proof.
  intros reg. split; [| repeat split].
  unfold ordered. simpl. repeat constructor.
Qed.

(* ================================================================= *)
(** ** Further properties of the registry *)

Section Registry.

Import IngredientCache.

Implicit Types (l : IngrList) (s c : Container) (x y : Ingredient) (k : string).

Lemma ltb_asym (a b : string) : String.ltb a b = true -> String.ltb b a = false.
Proof.
  intros Hab. destruct (String.ltb b a) eqn:Hba; [| reflexivity].
  pose proof (ltb_trans _ _ _ Hab Hba) as Hc.
  rewrite ltb_irrefl in Hc. discriminate.
Qed.

Lemma holder_of_own_key s x :
  NoDup (keys s) -> In x s -> first_with_key (_name x) s = Some x.
Proof.
  unfold first_with_key. induction s as [| y s IH]; simpl; [tauto |].
  intros Hnd Hin. inversion Hnd as [| ? ? Hnot Hnd']; subst.
  destruct Hin as [-> | Hin].
  - unfold has_key. now rewrite String.eqb_refl.
  - destruct (has_key (_name x) y) eqn:Hk; [| now apply IH].
    apply has_key_true in Hk. exfalso. apply Hnot. rewrite Hk.
    now apply In_keys.
Qed.

Lemma getList_id c : getList c = c.
Proof.
  unfold getList.
  enough (H : forall vec,
             fold_left (fun (vec : IngrList) (it : Ingredient) => vec ++ [it])
                       c vec = vec ++ c) by apply (H []).
  induction c as [| x c IH]; intros vec; simpl.
  - now rewrite app_nil_r.
  - rewrite IH. now rewrite <- app_assoc.
Qed.

Lemma sort_of_ordered c : ordered c -> sort c = (c, 0%N).
Proof.
  intros Hc.
  assert (Hfst : fst (sort c) = c).
  { apply same_keys_same_holders.
    - apply sorted_NoDup, sort_ordered.
    - apply sorted_unique; [apply sort_ordered | exact Hc |].
      intros k. apply sort_keys_In.
    - intros k. apply sort_first_with_key. }
  destruct (sort_count c) as [_ Hcount]. rewrite Hfst in Hcount.
  rewrite Nat.sub_diag in Hcount. simpl in Hcount.
  destruct (sort c) as [s n]. simpl in *. now subst.
Qed.

End Registry.

(** X1: whatever the input, the collection built by [sort] is strictly
    increasing by name, so no two of its entries share a name; each of its
    entries is an entry of the input, every name of the input is the name
    of one of its entries, and it is no longer than the input.  For an input
    within the range of the counter, the entries kept and the duplicates
    counted add up to the entries given. *)
Theorem sort_invariant (l : IngrList) :
  ordered (fst (IngredientCache.sort l)) /\
  NoDup (keys (fst (IngredientCache.sort l))) /\
  (forall x, In x (fst (IngredientCache.sort l)) -> In x l) /\
  (forall k, In k (keys (fst (IngredientCache.sort l))) <-> In k (keys l)) /\
  length (fst (IngredientCache.sort l)) <= length l /\
  ((N.of_nat (length l) < 2 ^ 32)%N ->
   (N.of_nat (length (fst (IngredientCache.sort l)))
    + snd (IngredientCache.sort l) = N.of_nat (length l))%N).
Proof.
  pose proof (sort_ordered l) as Hord.
  pose proof (sorted_NoDup _ Hord) as Hnd.
  destruct (sort_count l) as [Hle Hcount].
  split; [exact Hord |]. split; [exact Hnd |]. split; [| split; [| split]].
  - intros x Hx. pose proof (holder_of_own_key _ x Hnd Hx) as Hh.
    rewrite sort_first_with_key in Hh.
    now apply first_with_key_Some in Hh.
  - intros k. apply sort_keys_In.
  - exact Hle.
  - intros Hlen. rewrite Hcount, N.mod_small by lia. lia.
Qed.

Example sort_invariant_witness :
  let salts m :=
    ingredient_of "Fire Salts"
      (effect_of "Fire Damage" m 5) (effect_of "Frost Resist" (1 # 1) 1)
      (effect_of "Restore Magicka" (1 # 1) 1) (effect_of "Slow" (1 # 1) 1) in
  let l := [salts (10 # 1)%Q; salts (20 # 1)%Q; salts (10 # 1)%Q] in
  (N.of_nat (length l) < 2 ^ 32)%N /\
  (N.of_nat (length (fst (IngredientCache.sort l)))
   + snd (IngredientCache.sort l) = 3)%N.
Proof.
  intros salts l.
  assert (Hlen : (N.of_nat (length l) < 2 ^ 32)%N) by (vm_compute; reflexivity).
  split; [exact Hlen |].
  destruct (sort_invariant l) as (_ & _ & _ & _ & _ & H).
  exact (H Hlen).
Defined.

(** X2: a registry survives the round trip through its list: [getList]
    returns the entries of the container it is given, all of them and in
    iteration order, and building a registry from that list gives the same
    collection and counts no duplicate.  In particular sorting twice is
    sorting once. *)
Theorem getList_sort_round_trip (c : Container) (l : IngrList) :
  IngredientCache.getList c = c /\
  (ordered c ->
   IngredientCache.sort (IngredientCache.getList c) = (c, 0%N) /\
   IngredientCache.from_list (IngredientCache.getList c) = c) /\
  IngredientCache.from_list
    (IngredientCache.getList (IngredientCache.from_list l))
  = IngredientCache.from_list l.
Proof.
  split; [apply getList_id |]. split.
  - intros Hc. unfold IngredientCache.from_list.
    rewrite getList_id, (sort_of_ordered c Hc). auto.
  - unfold IngredientCache.from_list. rewrite getList_id.
    now rewrite (sort_of_ordered _ (sort_ordered l)).
Qed.

Example getList_sort_round_trip_witness :
  let plain n :=
    ingredient_of n
      (effect_of "Fire Damage" (1 # 1) 5) (effect_of "Frost Resist" (1 # 1) 1)
      (effect_of "Restore Magicka" (1 # 1) 1) (effect_of "Slow" (1 # 1) 1) in
  let c := [plain "Ash"; plain "Ember"; plain "Fire Salts"]%string in
  ordered c /\
  IngredientCache.sort (IngredientCache.getList c) = (c, 0%N).
Proof.
  intros plain c.
  assert (Hc : ordered c) by (unfold ordered; simpl; repeat constructor).
  split; [exact Hc |].
  destruct (getList_sort_round_trip c []) as (_ & H & _).
  exact (proj1 (H Hc)).
Defined.

(* ================================================================= *)
(** ** Further properties of the searches *)

Section Searches.

Import IngredientCache.

Context {A : Type} (p : A -> bool).

Implicit Types (l : list A) (j : nat).

Lemma nth_error_index_of l : nth_error l (index_of p l) = List.find p l.
Proof.
  induction l as [| x l IH]; simpl; [reflexivity |].
  destruct (p x); [reflexivity | exact IH].
Qed.

Lemma index_of_skipn l j :
  j <= index_of p l -> index_of p (skipn j l) = index_of p l - j.
Proof.
  revert j. induction l as [| x l IH]; intros j; simpl.
  - intros Hj. replace j with 0 by lia. reflexivity.
  - destruct j as [| j]; simpl; [lia |].
    destruct (p x); [lia |]. intros Hj. apply IH. lia.
Qed.

Lemma find_if_from_start l : find_if l 0 p = index_of p l.
Proof. unfold find_if. now rewrite find_if_loop_index. Qed.

Lemma index_of_end_iff l :
  index_of p l = length l <-> forall x, In x l -> p x = false.
Proof.
  induction l as [| x l IH]; simpl.
  - split; [intros _ y [] | reflexivity].
  - destruct (p x) eqn:Hx.
    + split; [discriminate |]. intros H. rewrite (H x) in Hx by now left.
      discriminate.
    + split.
      * intros H y [<- | Hy]; [exact Hx |]. apply IH; [lia | exact Hy].
      * intros H. f_equal. apply IH. intros y Hy. apply H. now right.
Qed.

End Searches.

(** X3: looking a name up in a registry right after it was built finds the
    earliest entry of the input with that name: [get] from the beginning,
    in name mode, returns the iterator to that entry, and the end exactly
    when no input entry has the name. *)
Theorem get_after_sort (pred : string -> string -> bool) (l : IngrList)
  (name : string) :
  let reg := IngredientCache.from_list l in
  let r := IngredientCache.get pred reg name 0 false in
  nth_error reg r = first_with_key name l /\
  (r = length reg <-> ~ In name (keys l)).
Proof.
  intros reg r.
  assert (Hr : r = index_of (has_key name) reg).
  { unfold r, IngredientCache.get. now rewrite find_if_from_start. }
  assert (Hnth : nth_error reg r = first_with_key name l).
  { rewrite Hr, nth_error_index_of. unfold reg, IngredientCache.from_list.
    apply sort_first_with_key. }
  split; [exact Hnth |].
  rewrite <- first_with_key_None, <- Hnth. split.
  - intros ->. apply nth_error_None. lia.
  - intros Hnone. apply nth_error_None in Hnone.
    pose proof (index_of_le (has_key name) reg). lia.
Qed.

(** X4: [get] does not depend on where the scan starts, as long as the
    start lies between the original start and the hit: restarting anywhere
    up to the entry found, and at that entry itself, finds the same entry;
    and a scan started at the end returns the end. *)
Theorem get_restart (pred : string -> string -> bool) (_ingr : Container)
  (name : string) (off off' : nat) (only_effects : bool) :
  (off <= off' <= IngredientCache.get pred _ingr name off only_effects ->
   IngredientCache.get pred _ingr name off' only_effects
   = IngredientCache.get pred _ingr name off only_effects) /\
  IngredientCache.get pred _ingr name (length _ingr) only_effects
  = length _ingr.
Proof.
  unfold IngredientCache.get, IngredientCache.find_if.
  rewrite !find_if_loop_index. split.
  - intros [Hlo Hhi].
    replace off' with ((off' - off) + off) at 1 2 by lia.
    rewrite <- skipn_skipn, index_of_skipn; lia.
  - rewrite skipn_all. simpl. lia.
Qed.

Example get_restart_witness :
  let plain n :=
    ingredient_of n
      (effect_of "Fire Damage" (1 # 1) 5) (effect_of "Frost Resist" (1 # 1) 1)
      (effect_of "Restore Magicka" (1 # 1) 1) (effect_of "Slow" (1 # 1) 1) in
  let reg := [plain "Ash"; plain "Ember"; plain "Fire Salts"]%string in
  0 <= 1 <= IngredientCache.get String.eqb reg "Fire Salts" 0 false /\
  IngredientCache.get String.eqb reg "Fire Salts" 1 false = 2.
Proof.
  intros plain reg.
  assert (H : 0 <= 1 <= IngredientCache.get String.eqb reg "Fire Salts" 0 false)
    by (vm_compute; lia).
  split; [exact H |].
  destruct (get_restart String.eqb reg "Fire Salts" 0 1 false) as [Hr _].
  rewrite (Hr H). reflexivity.
Defined.

Section FindScan.

Import RegistryType.

Variable test : Ingredient -> bool.

Implicit Types (l cont : Container) (x y : Ingredient).

(** An entry above all the entries of the set goes to its end. *)
Lemma set_insert_last cont x :
  Forall (fun y => _internal.less y x = true) cont ->
  set_insert cont x = (cont ++ [x], (length cont, true)).
Proof.
  induction cont as [| y cont IH]; simpl; intros Hall; [reflexivity |].
  inversion Hall as [| ? ? Hy Hall']; subst.
  unfold _internal.less in *. rewrite (ltb_asym _ _ Hy), Hy.
  now rewrite (IH Hall').
Qed.

Lemma scan_is_filter l cont :
  ordered l ->
  Forall (fun y => Forall (fun x => _internal.less y x = true) l) cont ->
  fold_left (fun (cont : Container) (it : Ingredient) =>
               if test it then insert_into cont it else cont) l cont
  = cont ++ filter test l.
Proof.
  unfold ordered. revert cont.
  induction l as [| x l IH]; intros cont Hl Hbelow; simpl.
  - now rewrite app_nil_r.
  - simpl in Hl. inversion Hl as [| ? ? Hl' Hx]; subst.
    assert (Hrest : Forall (fun y => Forall (fun z => _internal.less y z = true) l)
                           cont).
    { eapply Forall_impl; [| exact Hbelow]. intros y Hy.
      now inversion Hy. }
    destruct (test x).
    + unfold insert_into. rewrite set_insert_last.
      * simpl. rewrite IH; [now rewrite <- app_assoc | exact Hl' |].
        apply Forall_app. split; [exact Hrest |].
        constructor; [| constructor].
        apply Forall_forall. intros z Hz. unfold _internal.less.
        eapply Forall_forall in Hx; [exact Hx | now apply In_keys].
      * eapply Forall_impl; [| exact Hbelow]. intros y Hy.
        now inversion Hy.
    + now apply IH.
Qed.

Lemma filter_ordered l : ordered l -> ordered (filter test l).
Proof.
  unfold ordered. induction l as [| x l IH]; simpl; intros Hl; [constructor |].
  inversion Hl as [| ? ? Hl' Hx]; subst.
  destruct (test x); [| now apply IH]. simpl. constructor; [now apply IH |].
  apply Forall_forall. intros k Hk. apply keys_In in Hk.
  destruct Hk as (y & Hy & <-). apply filter_In in Hy.
  eapply Forall_forall in Hx; [exact Hx | now apply In_keys].
Qed.

End FindScan.

Lemma find_filter (pred : string -> string -> bool) (_ingr : Container)
  (name : string) (search : RegistryType.FindType) :
  ordered _ingr ->
  RegistryType.find pred _ingr name search
  = filter (find_test pred (str.tolower name) search) _ingr.
Proof.
  intros Hord. unfold RegistryType.find.
  destruct search.
  - exact (scan_is_filter
             (find_test pred (str.tolower name) RegistryType.BOTH)
             _ingr [] Hord (Forall_nil _)).
  - exact (scan_is_filter
             (find_test pred (str.tolower name) RegistryType.INGR)
             _ingr [] Hord (Forall_nil _)).
  - exact (scan_is_filter
             (find_test pred (str.tolower name) RegistryType.EFFECT)
             _ingr [] Hord (Forall_nil _)).
Qed.

(** X5: on a registry, [find] returns exactly the entries that pass the test
    of the scope for the lowered query, in registry order, and what it
    returns is again strictly increasing by name; [find_and_duplicate]
    returns the same collection. *)
Theorem find_returns_the_matches (pred : string -> string -> bool)
  (_ingr : Container) (name : string) (search : RegistryType.FindType) :
  ordered _ingr ->
  RegistryType.find pred _ingr name search
  = filter (find_test pred (str.tolower name) search) _ingr /\
  (forall x, In x (RegistryType.find pred _ingr name search) <->
             In x _ingr /\ find_test pred (str.tolower name) search x = true) /\
  ordered (RegistryType.find pred _ingr name search) /\
  RegistryType.find_and_duplicate pred _ingr name search
  = RegistryType.find pred _ingr name search.
Proof.
  intros Hord. rewrite (find_filter pred _ingr name search Hord).
  split; [reflexivity |]. split; [intros x; apply filter_In |].
  split; [now apply filter_ordered |].
  rewrite <- (find_filter pred _ingr name search Hord). reflexivity.
Qed.

Example find_returns_the_matches_witness :
  let plain n f :=
    ingredient_of n
      (effect_of f (1 # 1) 5) (effect_of "Frost Resist" (1 # 1) 1)
      (effect_of "Restore Magicka" (1 # 1) 1) (effect_of "Slow" (1 # 1) 1) in
  let reg := [plain "Ash" "Regenerate"; plain "Ember" "Fire Damage";
              plain "Fire Salts" "Fear"]%string in
  let pred := OutputFormat_.match_ (format_with false false) in
  ordered reg /\
  RegistryType.find pred reg "FIRE" RegistryType.BOTH
  = [plain "Ember" "Fire Damage"; plain "Fire Salts" "Fear"]%string.
Proof.
  intros plain reg pred.
  assert (Hord : ordered reg) by (unfold ordered; simpl; repeat constructor).
  split; [exact Hord |].
  destruct (find_returns_the_matches pred reg "FIRE" RegistryType.BOTH Hord)
    as [-> _].
  reflexivity.
Defined.

Section BestFitAndFind.

Variable fmt : OutputFormat.
Hypothesis partial_mode : _flag_exact fmt = false.

Lemma match_partial (a b : string) :
  OutputFormat_.match_ fmt a b
  = String.eqb a b || RegistryType.found_in a b.
Proof. unfold OutputFormat_.match_. now rewrite partial_mode. Qed.

Lemma existsb_orb {A : Type} (f g : A -> bool) (l : list A) :
  existsb (fun a => f a || g a) l = existsb f l || existsb g l.
Proof.
  induction l as [| a l IH]; simpl; [reflexivity |].
  rewrite IH. destruct (f a), (g a), (existsb f l); reflexivity.
Qed.

(** In partial mode the entries that [find] keeps are those that
    [find_best_fit] returns at once or collects. *)
Lemma hit_or_candidate (name : string) (search : RegistryType.FindType)
  (x : Ingredient) :
  exact_hit search name x || candidate search name x
  = find_test (OutputFormat_.match_ fmt) name search x.
Proof.
  assert (Hfx : existsb
                  (fun fx : Effect =>
                     OutputFormat_.match_ fmt (str.tolower (_name fx)) name)
                  (_effects x)
                = fx_is name x || fx_has name x).
  { unfold fx_is, fx_has. rewrite <- existsb_orb.
    induction (_effects x) as [| fx fxs IH]; simpl; [reflexivity |].
    now rewrite IH, match_partial. }
  unfold find_test. rewrite Hfx, match_partial.
  change (String.eqb (str.tolower (_name x)) name) with (lowered_is name x).
  change (RegistryType.found_in (str.tolower (_name x)) name)
    with (lowered_has name x).
  destruct search; simpl;
    destruct (lowered_is name x), (lowered_has name x), (fx_is name x),
      (fx_has name x); reflexivity.
Qed.

End BestFitAndFind.

(** X6: in partial mode the two searches agree on whether anything matches:
    [find_best_fit], given the lowered query, returns the end of the registry
    exactly when [find] with the match predicate returns an empty collection
    in the same scope, and an entry it returns is one of those that [find]
    returns. *)
Theorem find_best_fit_within_find (fmt : OutputFormat) (reg : Container)
  (name : string) (search : RegistryType.FindType) :
  _flag_exact fmt = false -> ordered reg ->
  let r := RegistryType.find_best_fit reg (str.tolower name) search in
  let found := RegistryType.find (OutputFormat_.match_ fmt) reg name search in
  (r = length reg <-> found = []) /\
  (forall x, nth_error reg r = Some x -> In x found).
Proof.
  intros Hpartial Hord r found.
  unfold found. rewrite (find_filter _ reg name search Hord).
  unfold r. rewrite find_best_fit_best_fit. unfold best_fit.
  set (q := str.tolower name).
  assert (Hin : forall x, In x reg ->
            (exact_hit search q x = true \/ candidate search q x = true) ->
            In x (filter (find_test (OutputFormat_.match_ fmt) q search) reg)).
  { intros x Hx Hor. apply filter_In. split; [exact Hx |].
    rewrite <- (hit_or_candidate fmt Hpartial).
    apply orb_true_iff. exact Hor. }
  destruct (existsb (exact_hit search q) reg) eqn:Hex.
  - pose proof (index_of_some _ _ Hex) as Hlt.
    destruct (index_of_at _ _ Hlt) as (x & Hx & Hp).
    split.
    + split; [lia |]. intros Hnil.
      assert (Hxin : In x (filter (find_test (OutputFormat_.match_ fmt) q search)
                                  reg)).
      { apply Hin; [eapply nth_error_In; eauto | now left]. }
      rewrite Hnil in Hxin. destruct Hxin.
    + intros y Hy. rewrite Hx in Hy. injection Hy as <-.
      apply Hin; [eapply nth_error_In; eauto | now left].
  - split.
    + rewrite index_of_end_iff. split.
      * intros Hnone.
        destruct (filter (find_test (OutputFormat_.match_ fmt) q search) reg)
          as [| x rest] eqn:Hf; [reflexivity |].
        assert (Hx : In x (filter (find_test (OutputFormat_.match_ fmt) q search)
                                  reg)) by (rewrite Hf; now left).
        apply filter_In in Hx. destruct Hx as [Hx Ht].
        rewrite <- (hit_or_candidate fmt Hpartial) in Ht.
        rewrite (Hnone x Hx), orb_false_r in Ht.
        assert (He : existsb (exact_hit search q) reg = true)
          by (apply existsb_exists; eauto).
        congruence.
      * intros Hnil x Hx.
        destruct (candidate search q x) eqn:Hc; [| reflexivity].
        assert (Hxin : In x (filter (find_test (OutputFormat_.match_ fmt) q search)
                                    reg)) by (apply Hin; auto).
        rewrite Hnil in Hxin. destruct Hxin.
    + intros y Hy.
      pose proof (nth_error_Some reg (index_of (candidate search q) reg)) as Hs.
      assert (Hlt : index_of (candidate search q) reg < length reg)
        by (apply Hs; congruence).
      destruct (index_of_at _ _ Hlt) as (x & Hx & Hp).
      rewrite Hx in Hy. injection Hy as <-.
      apply Hin; [eapply nth_error_In; eauto | now right].
Qed.

Example find_best_fit_within_find_witness :
  let plain n f :=
    ingredient_of n
      (effect_of f (1 # 1) 5) (effect_of "Frost Resist" (1 # 1) 1)
      (effect_of "Restore Magicka" (1 # 1) 1) (effect_of "Slow" (1 # 1) 1) in
  let reg := [plain "Ash" "Regenerate"; plain "Ember" "Fire Damage";
              plain "Fire Salts" "Fear"]%string in
  let fmt := format_with false false in
  _flag_exact fmt = false /\ ordered reg /\
  In (plain "Ember"%string "Fire Damage"%string)
     (RegistryType.find (OutputFormat_.match_ fmt) reg "Fire" RegistryType.BOTH).
Proof.
  intros plain reg fmt.
  assert (Hord : ordered reg) by (unfold ordered; simpl; repeat constructor).
  split; [reflexivity |]. split; [exact Hord |].
  destruct (find_best_fit_within_find fmt reg "Fire" RegistryType.BOTH
              eq_refl Hord) as [_ H].
  apply H. reflexivity.
Defined.

(* ================================================================= *)
(** ** Further properties of the effect-merge reduction *)

Section BySightings.

Implicit Types (l p common tmp : EffectList) (it e x y : Effect) (n : string).

Lemma sightings_snoc n p it :
  sightings n (p ++ [it])
  = sightings n p ++ (if String.eqb (_name it) n then [it] else []).
Proof. unfold sightings. now rewrite filter_app. Qed.

Lemma sightings_snoc_other n p it :
  _name it <> n -> sightings n (p ++ [it]) = sightings n p.
Proof.
  intros Hne. rewrite sightings_snoc.
  apply String.eqb_neq in Hne. rewrite Hne. apply app_nil_r.
Qed.

Lemma sightings_snoc_same p it :
  sightings (_name it) (p ++ [it]) = sightings (_name it) p ++ [it].
Proof. rewrite sightings_snoc. now rewrite String.eqb_refl. Qed.

Lemma count_occ_sightings n p :
  count_occ string_dec (names p) n = length (sightings n p).
Proof.
  induction p as [| e p IH]; simpl; [reflexivity |].
  destruct (string_dec (_name e) n) as [Heq | Hne].
  - apply String.eqb_eq in Heq. rewrite Heq. simpl. now rewrite IH.
  - apply String.eqb_neq in Hne. now rewrite Hne.
Qed.

Lemma In_sightings n p e : In e p -> _name e = n -> In e (sightings n p).
Proof.
  intros Hin Hn. apply filter_In. split; [exact Hin |].
  now apply String.eqb_eq.
Qed.

Lemma only_sighting n p e :
  count_occ string_dec (names p) n = 1 -> In e p -> _name e = n ->
  sightings n p = [e].
Proof.
  intros Hc Hin Hn. rewrite count_occ_sightings in Hc.
  pose proof (In_sightings n p e Hin Hn) as Hs.
  destruct (sightings n p) as [| a [| b t]]; simpl in *; try lia.
  destruct Hs as [-> | []]. reflexivity.
Qed.

Lemma merge_sightings_snoc l it e :
  merge_sightings l = Some e ->
  merge_sightings (l ++ [it]) = Some (raise_to it e).
Proof.
  destruct l as [| a [| b t]]; simpl; try discriminate.
  intros [= <-]. now rewrite fold_left_app.
Qed.

Lemma by_sightings_step p st it :
  merge_inv p st -> by_sightings p st ->
  by_sightings (p ++ [it]) (merge_effect st it).
Proof.
  destruct st as [common tmp]. intros [Htn Hts Hcn _] Hby.
  unfold by_sightings in *. simpl in *.
  assert (Hkeep : forall c, Forall (fun e => _name e <> _name it) c ->
            Forall (fun e => merge_sightings (sightings (_name e) p) = Some e) c ->
            Forall (fun e => merge_sightings (sightings (_name e) (p ++ [it]))
                             = Some e) c).
  { intros c Hne Hc. apply Forall_forall. intros e He.
    pose proof (proj1 (Forall_forall _ _) Hc e He) as Hm.
    pose proof (proj1 (Forall_forall _ _) Hne e He) as Hn.
    simpl in Hm, Hn. rewrite sightings_snoc_other; auto. }
  unfold merge_effect.
  destruct (is_duplicate tmp it) as [d |] eqn:Htmp.
  - apply is_duplicate_Some in Htmp.
    destruct Htmp as (t1 & dupl & t2 & -> & <- & Hdn & _).
    rewrite nth_middle_len.
    assert (Hdp : In dupl p) by (apply Hts, in_elt).
    destruct (is_duplicate common it) as [c |] eqn:Hcom.
    + apply is_duplicate_Some in Hcom.
      destruct Hcom as (c1 & cur & c2 & -> & <- & Hcurn & _).
      rewrite assign_at_middle. simpl.
      assert (Hnd : NoDup (names (c1 ++ cur :: c2)))
        by (rewrite Hcn; apply confirm_order_NoDup).
      rewrite names_app in Hnd. simpl in Hnd.
      apply NoDup_remove_2 in Hnd. rewrite in_app_iff in Hnd.
      apply Forall_app in Hby. destruct Hby as [Hc1 Hc2].
      apply Forall_cons_iff in Hc2. destruct Hc2 as [Hcur Hc2].
      apply Forall_app. split; [| apply Forall_cons].
      * apply Hkeep; [| exact Hc1]. apply Forall_forall. intros e He Heq.
        apply Hnd. left. rewrite Hcurn, <- Heq. now apply In_names.
      * rewrite raise_to_name, Hcurn, sightings_snoc_same.
        apply merge_sightings_snoc. now rewrite <- Hcurn.
      * apply Hkeep; [| exact Hc2]. apply Forall_forall. intros e He Heq.
        apply Hnd. right. rewrite Hcurn, <- Heq. now apply In_names.
    + apply is_duplicate_None in Hcom.
      assert (Hseen : 1 <= count_occ string_dec (names p) (_name it)).
      { apply count_occ_names_In. rewrite <- Hdn. now apply In_names. }
      assert (Hone : count_occ string_dec (names p) (_name it) = 1).
      { rewrite Hcn, confirm_order_In in Hcom. lia. }
      assert (Hold : Forall (fun e => merge_sightings
                                        (sightings (_name e) (p ++ [it]))
                                      = Some e) common).
      { apply Hkeep; [| exact Hby]. apply Forall_forall. intros e He Heq.
        apply Hcom. rewrite <- Heq. now apply In_names. }
      assert (Hnew : merge_sightings (sightings (_name it) (p ++ [it]))
                     = Some (if Qltb (_magnitude it) (_magnitude dupl)
                             then dupl else it)).
      { rewrite sightings_snoc_same,
          (only_sighting (_name it) p dupl Hone Hdp Hdn).
        reflexivity. }
      destruct (Qltb (_magnitude it) (_magnitude dupl)); simpl;
        apply Forall_app; (split; [exact Hold |]);
        constructor; try constructor; [rewrite Hdn |]; exact Hnew.
  - apply is_duplicate_None in Htmp. simpl.
    apply Hkeep; [| exact Hby]. apply Forall_forall. intros e He Heq.
    apply Htmp. apply Htn. rewrite <- Heq.
    assert (Hin : In (_name e) (names common)) by now apply In_names.
    rewrite Hcn, confirm_order_In in Hin.
    apply count_occ_names_In. lia.
Qed.

Lemma merge_effects_by_sightings p : by_sightings p (merge_effects p).
Proof.
  induction p as [| it p IH] using rev_ind.
  - constructor.
  - rewrite merge_effects_snoc.
    apply by_sightings_step; [apply merge_effects_inv | exact IH].
Qed.

Lemma raise_to_duration it e :
  _duration (raise_to it e) = N.max (_duration e) (_duration it).
Proof.
  unfold raise_to.
  destruct (Qltb (_magnitude e) (_magnitude it)); simpl;
    destruct (N.ltb_spec (_duration e) (_duration it)); simpl; lia.
Qed.

Lemma raise_to_keywords it e : _keywords (raise_to it e) = _keywords e.
Proof.
  unfold raise_to.
  destruct (Qltb (_magnitude e) (_magnitude it)); simpl;
    match goal with |- context [N.ltb ?a ?b] => destruct (N.ltb a b) end;
    reflexivity.
Qed.

Lemma raised_duration later e :
  _duration (fold_left (fun current it => raise_to it current) later e)
  = fold_left N.max (map _duration later) (_duration e).
Proof.
  revert e. induction later as [| it later IH]; intros e; simpl;
    [reflexivity |].
  now rewrite IH, raise_to_duration.
Qed.

Lemma raised_keywords later e :
  _keywords (fold_left (fun current it => raise_to it current) later e)
  = _keywords e.
Proof.
  revert e. induction later as [| it later IH]; intros e; simpl;
    [reflexivity |].
  now rewrite IH, raise_to_keywords.
Qed.

End BySightings.

Lemma common_by_name (ingr : list Ingredient) :
  map Some (fst (merge_ingredients ingr))
  = map (fun n => merge_sightings (sightings n (all_effects ingr)))
        (confirm_order (names (all_effects ingr))).
Proof.
  rewrite merge_ingredients_flat.
  set (p := all_effects ingr).
  pose proof (merge_effects_by_sightings p) as Hby.
  destruct (merge_effects_inv p) as [_ _ Hcn _].
  unfold by_sightings in Hby.
  rewrite <- Hcn. unfold names. rewrite map_map.
  apply map_ext_in. intros e He.
  symmetry. exact (proj1 (Forall_forall _ _) Hby e He).
Qed.

(** X7: the reduction treats every name on its own.  For 2 to 4 ingredients
    the result lists, in confirmation order, what the sightings of each
    confirmed name merge to.  An effect of the result carries the keywords
    of the stronger of the first two sightings of its name (the second one
    on a tie), and its duration is the largest among the duration of that
    sighting and the durations of the sightings after the second. *)
Theorem get_common_effects_by_name (ingr : list Ingredient) :
  2 <= length ingr <= 4 ->
  exists common,
    get_common_effects ingr = Return common /\
    map Some common
    = map (fun n => merge_sightings (sightings n (all_effects ingr)))
          (confirm_order (names (all_effects ingr))) /\
    (forall e : Effect, In e common ->
     exists first second later,
       sightings (_name e) (all_effects ingr) = first :: second :: later /\
       let chosen := if Qltb (_magnitude second) (_magnitude first)
                     then first else second in
       _keywords e = _keywords chosen /\
       _duration e = fold_left N.max (map _duration later) (_duration chosen)).
Proof.
  intros Hlen. exists (fst (merge_ingredients ingr)).
  split; [now apply get_common_effects_in_range |].
  split; [apply common_by_name |].
  rewrite merge_ingredients_flat.
  set (p := all_effects ingr).
  pose proof (merge_effects_by_sightings p) as Hby.
  unfold by_sightings in Hby.
  intros e He. pose proof (proj1 (Forall_forall _ _) Hby e He) as Hm.
  simpl in Hm.
  destruct (sightings (_name e) p) as [| first [| second later]];
    try discriminate.
  exists first, second, later. split; [reflexivity |].
  simpl in Hm. injection Hm as <-.
  split; [apply raised_keywords | apply raised_duration].
Qed.

Example get_common_effects_by_name_witness :
  let ingr :=
    [ingredient_of "Fire Salts"
       (effect_of "Fire Damage" (10 # 1) 100) (effect_of "Frost Resist" (3 # 1) 30)
       (effect_of "Restore Magicka" (2 # 1) 0) (effect_of "Slow" (1 # 1) 4);
     ingredient_of "Ember"
       (effect_of "Fire Damage" (20 # 1) 5) (effect_of "Regenerate" (1 # 2) 10)
       (effect_of "Paralysis" (1 # 1) 1) (effect_of "Fear" (1 # 1) 30);
     ingredient_of "Ash"
       (effect_of "Regenerate" (5 # 1) 1) (effect_of "Fire Damage" (15 # 1) 9)
       (effect_of "Frenzy" (1 # 1) 10) (effect_of "Fear" (4 # 1) 4)] in
  2 <= length ingr <= 4 /\
  get_common_effects ingr
  = Return [effect_of "Fire Damage" (20 # 1) 9; effect_of "Regenerate" (5 # 1) 1;
            effect_of "Fear" (4 # 1) 4].
Proof.
  intros ingr.
  assert (Hlen : 2 <= length ingr <= 4) by (simpl; lia).
  split; [exact Hlen |].
  destruct (get_common_effects_by_name ingr Hlen) as (common & -> & Hmap & _).
  f_equal. vm_compute in Hmap.
  destruct common as [| a [| b [| c [| d t]]]]; try discriminate.
  injection Hmap as -> -> ->. reflexivity.
Defined.

Section SelfCombination.

Lemma confirm_order_repeated (a b : list string) :
  NoDup (a ++ b) -> confirm_order ((a ++ b) ++ a) = a.
Proof.
  revert b. induction a as [| x a IH] using rev_ind; intros b Hnd.
  - rewrite !app_nil_r. now apply confirm_order_nil_of_NoDup.
  - rewrite app_assoc, confirm_order_snoc.
    rewrite <- app_assoc in Hnd. simpl in Hnd.
    assert (Hcount : count_occ string_dec (((a ++ [x]) ++ b) ++ a) x = 1).
    { rewrite <- (app_assoc a [x] b). simpl.
      rewrite !count_occ_app. simpl.
      destruct (string_dec x x) as [_ | Hne]; [| congruence].
      pose proof (NoDup_remove_2 _ _ _ Hnd) as Hnot.
      rewrite in_app_iff in Hnot.
      assert (Ha : count_occ string_dec a x = 0)
        by (apply count_occ_not_In; tauto).
      assert (Hb : count_occ string_dec b x = 0)
        by (apply count_occ_not_In; tauto).
      lia. }
    rewrite Hcount. simpl. f_equal.
    rewrite <- (app_assoc a [x] b). simpl. now apply IH.
Qed.

Lemma sightings_of_own_name (l : list Effect) (e : Effect) :
  NoDup (names l) -> In e l -> sightings (_name e) l = [e].
Proof.
  intros Hnd Hin. apply only_sighting; auto.
  pose proof (proj1 (NoDup_count_occ string_dec (names l)) Hnd (_name e)).
  pose proof (proj1 (count_occ_names_In l (_name e))).
  assert (0 < count_occ string_dec (names l) (_name e))
    by (apply count_occ_names_In; now apply In_names).
  lia.
Qed.

Lemma Qltb_irrefl (q : Q) : Qltb q q = false.
Proof.
  unfold Qltb. apply negb_false_iff. apply Qle_bool_iff. apply Qle_refl.
Qed.

End SelfCombination.

(** X8: an ingredient combined with itself gives back its own effects: when
    the slots of an ingredient carry distinct names, the shared effects of
    the ingredient taken twice are its effects, in slot order and unchanged
    in magnitude, duration and keywords. *)
Theorem get_common_effects_self (i : Ingredient) :
  NoDup (names (_effects i)) ->
  get_common_effects [i; i] = Return (_effects i).
Proof.
  intros Hnd.
  rewrite get_common_effects_in_range by (simpl; lia).
  pose proof (common_by_name [i; i]) as Hmap.
  set (common := fst (merge_ingredients [i; i])) in *.
  f_equal. unfold all_effects in Hmap. simpl in Hmap.
  rewrite app_nil_r in Hmap.
  assert (Horder : confirm_order (names (_effects i ++ _effects i))
                   = names (_effects i)).
  { rewrite names_app.
    rewrite <- (app_nil_r (names (_effects i))) at 1.
    apply confirm_order_repeated. now rewrite app_nil_r. }
  rewrite Horder in Hmap. unfold names in Hmap. rewrite map_map in Hmap.
  assert (Hsame : map Some common = map Some (_effects i)).
  { rewrite Hmap. apply map_ext_in. intros e He.
    unfold sightings. rewrite filter_app.
    change (filter (fun e0 : Effect => String.eqb (_name e0) (_name e))
                   (_effects i)) with (sightings (_name e) (_effects i)).
    rewrite (sightings_of_own_name _ e Hnd He). simpl.
    now rewrite Qltb_irrefl. }
  clear - Hsame. revert Hsame. generalize (_effects i) as l.
  induction common as [| c common IH]; intros [| x l]; simpl;
    try discriminate; [reflexivity |].
  intros [= -> H]. f_equal. now apply IH.
Qed.

Example get_common_effects_self_witness :
  let salts :=
    ingredient_of "Fire Salts"
      (effect_of "Fire Damage" (10 # 1) 100) (effect_of "Frost Resist" (3 # 1) 30)
      (effect_of "Restore Magicka" (2 # 1) 0) (effect_of "Slow" (1 # 1) 4) in
  NoDup (names (_effects salts)) /\
  get_common_effects [salts; salts] = Return (_effects salts).
Proof.
  intros salts.
  assert (Hnd : NoDup (names (_effects salts))).
  { apply (NoDup_count_occ' string_dec). intros n Hn. simpl in Hn.
    destruct Hn as [<- | [<- | [<- | [<- | []]]]]; reflexivity. }
  split; [exact Hnd |]. now apply get_common_effects_self.
Defined.

(* ================================================================= *)
(** ** Further properties of potions *)

(** X9: building a potion fails exactly when deriving the shared effects
    fails, with the same message.  A potion built from 2 to 4 ingredients
    carries the name it was given, holds the shared effects as its base
    effects, and has one final effect per base effect: the names are those
    of the confirmed names in confirmation order, the durations those of
    the base effects.  The unnamed potion is called "Potion". *)
Theorem potion_construction (name : string) (ingredients : list Ingredient)
  (gs : GameSettings) :
  (forall what, Potion_new name ingredients gs = Throw what <->
                get_common_effects ingredients = Throw what) /\
  (2 <= length ingredients <= 4 ->
   exists p : Potion,
     Potion_new name ingredients gs = Return p /\
     _name p = name /\
     get_common_effects ingredients = Return (_base_fx p) /\
     names (_fx p) = confirm_order (names (all_effects ingredients)) /\
     map _duration (_fx p) = map _duration (_base_fx p) /\
     (exists q : Potion, Potion_default ingredients gs = Return q /\
        _name q = "Potion"%string /\ _fx q = _fx p)).
Proof.
  split.
  - intros what. unfold Potion_new.
    destruct (get_common_effects ingredients) as [base | w].
    + split; discriminate.
    + split; intros [= ->]; reflexivity.
  - intros Hlen. unfold Potion_default, Potion_new.
    rewrite (get_common_effects_in_range _ Hlen).
    eexists. split; [reflexivity |]. simpl.
    split; [reflexivity |]. split; [reflexivity |].
    rewrite calculate_stats_map, merge_ingredients_flat.
    destruct (merge_effects_inv (all_effects ingredients)) as [_ _ Hcn _].
    split; [| split].
    + rewrite <- Hcn. unfold names. rewrite map_map. reflexivity.
    + rewrite map_map. reflexivity.
    + eexists. split; [reflexivity |]. simpl. split; reflexivity.
Qed.

Example potion_construction_witness :
  let ingredients :=
    [ingredient_of "Fire Salts"
       (effect_of "Fire Damage" (10 # 1) 100) (effect_of "Frost Resist" (3 # 1) 30)
       (effect_of "Restore Magicka" (2 # 1) 0) (effect_of "Slow" (1 # 1) 4);
     ingredient_of "Ember"
       (effect_of "Fire Damage" (20 # 1) 5) (effect_of "Regenerate" (1 # 2) 10)
       (effect_of "Paralysis" (1 # 1) 1) (effect_of "Fear" (1 # 1) 30)] in
  2 <= length ingredients <= 4 /\
  exists p : Potion,
    Potion_new "Ember Salts" ingredients doubling = Return p /\
    names (_fx p) = ["Fire Damage"%string].
Proof.
  intros ingredients.
  assert (Hlen : 2 <= length ingredients <= 4) by (simpl; lia).
  split; [exact Hlen |].
  destruct (potion_construction "Ember Salts" ingredients doubling) as [_ H].
  destruct (H Hlen) as (p & Hp & _ & _ & Hn & _).
  exists p. split; [exact Hp |]. rewrite Hn. reflexivity.
Defined.

(* ================================================================= *)
(** ** Format.hpp: splitting a name around a highlight *)

Section Splitting.

Local Open Scope string_scope.

Implicit Types (s a b c pat pre post : string).

Lemma tolower_length s : String.length (str.tolower s) = String.length s.
Proof. induction s as [| ch s IH]; simpl; congruence. Qed.

Lemma tolower_app a b : str.tolower (a ++ b) = str.tolower a ++ str.tolower b.
Proof. induction a as [| ch a IH]; simpl; congruence. Qed.

(** A lowered string splits where the original does. *)
Lemma tolower_split s x y :
  str.tolower s = x ++ y ->
  exists a b, s = a ++ b /\ str.tolower a = x /\ str.tolower b = y.
Proof.
  revert s. induction x as [| ch x IH]; intros s; simpl.
  - intros H. now exists EmptyString, s.
  - destruct s as [| d s]; simpl; [discriminate |].
    intros [= Hd H]. destruct (IH s H) as (a & b & -> & Ha & Hb).
    exists (String d a), b. simpl. now rewrite Hd, Ha.
Qed.

Lemma substring_prefix a r : String.substring 0 (String.length a) (a ++ r) = a.
Proof.
  induction a as [| ch a IH]; simpl; [now destruct r | now rewrite IH].
Qed.

Lemma substring_skip a r n :
  String.substring (String.length a) n (a ++ r) = String.substring 0 n r.
Proof. induction a as [| ch a IH]; simpl; auto. Qed.

Lemma substring_all c : String.substring 0 (String.length c) c = c.
Proof. induction c as [| ch c IH]; simpl; congruence. Qed.

Lemma string_find_first s pat k pre post :
  string_find s pat = Some k -> s = pre ++ pat ++ post ->
  k <= String.length pre.
Proof.
  revert k pre. induction s as [| ch s IH]; intros k pre; cbn [string_find].
  - destruct (String.prefix pat EmptyString); [| discriminate].
    intros [= <-] _. lia.
  - destruct (String.prefix pat (String ch s)) eqn:Hp.
    + intros [= <-] _. lia.
    + destruct (string_find s pat) as [k' |] eqn:Hf; [| discriminate].
      intros [= <-] Hs. destruct pre as [| d pre]; simpl in Hs.
      * assert (Ht : String.prefix pat (String ch s) = true)
          by (apply prefix_iff; now exists post).
        congruence.
      * injection Hs as _ Hs. simpl.
        pose proof (IH k' pre eq_refl Hs). lia.
Qed.

Lemma string_find_occurs s pat :
  string_find s pat <> None <-> occurs_in pat s.
Proof.
  split.
  - destruct (string_find s pat) as [k |] eqn:E; [| congruence].
    intros _. apply string_find_Some in E.
    destruct E as (pre & post & Hs & _). now exists pre, post.
  - intros Hocc Hnone. now apply string_find_None in Hnone.
Qed.

(** Once the highlight was found, the three [substr] calls succeed and cut
    the string around the place where its lowered form holds the highlight. *)
Lemma split_at_found s pat k :
  string_find (str.tolower s) pat = Some k ->
  exists a b c,
    Format.split_at s pat k = Return (a, b, c) /\
    s = a ++ b ++ c /\ String.length a = k /\ str.tolower b = pat.
Proof.
  intros Hf. apply string_find_Some in Hf.
  destruct Hf as (pre & post & Hs & Hk).
  apply tolower_split in Hs. destruct Hs as (a & r & -> & Ha & Hr).
  apply tolower_split in Hr. destruct Hr as (b & c & -> & Hb & Hc).
  assert (Hla : String.length a = k)
    by (rewrite <- Hk, <- Ha; symmetry; apply tolower_length).
  assert (Hlb : String.length b = String.length pat)
    by (rewrite <- Hb; symmetry; apply tolower_length).
  exists a, b, c. split; [| auto].
  unfold Format.split_at, substr, bind.
  rewrite !string_length_app.
  destruct (Nat.ltb_spec (String.length a + (String.length b + String.length c)) 0);
    [lia |].
  destruct (Nat.ltb_spec (String.length a + (String.length b + String.length c)) k);
    [lia |].
  destruct (Nat.ltb_spec (String.length a + (String.length b + String.length c))
                         (k + String.length pat)); [lia |].
  rewrite <- Hla, <- Hlb.
  rewrite substring_prefix, substring_skip, substring_prefix.
  replace (String.length a + String.length b)
    with (String.length (a ++ b)) by apply string_length_app.
  replace (a ++ b ++ c) with ((a ++ b) ++ c)
    by (clear; induction a; simpl; congruence).
  rewrite substring_skip.
  replace (String.length a + (String.length b + String.length c)
           - String.length (a ++ b)) with (String.length c)
    by (rewrite string_length_app; lia).
  now rewrite substring_all.
Qed.

Lemma append_nil_r s : s ++ EmptyString = s.
Proof. induction s; simpl; congruence. Qed.

End Splitting.

(** X10: [get_tuple] never throws, and the three pieces it returns always
    spell the string it was given.  When the string is not empty and its
    lowered form holds the highlight, the middle piece is the part of the
    string that, lowered, is the highlight, cut at the first place where it
    occurs; otherwise the string comes back whole with two empty pieces. *)
Theorem get_tuple_splits (str highlight : string) :
  exists pre mid post,
    Format.get_tuple str highlight = Return (pre, mid, post) /\
    (pre ++ mid ++ post)%string = str /\
    (str <> EmptyString -> occurs_in highlight (str.tolower str) ->
     str.tolower mid = highlight /\
     forall before after,
       str.tolower str = (before ++ highlight ++ after)%string ->
       String.length pre <= String.length before) /\
    (str = EmptyString \/ ~ occurs_in highlight (str.tolower str) ->
     (pre, mid, post) = (str, EmptyString, EmptyString)).
Proof.
  unfold Format.get_tuple. destruct str as [| ch rest].
  - exists EmptyString, EmptyString, EmptyString.
    split; [reflexivity |]. split; [reflexivity |].
    split; [congruence | reflexivity].
  - set (s := String ch rest).
    destruct (string_find (str.tolower s) highlight) as [k |] eqn:Hf.
    + destruct (split_at_found s highlight k Hf) as (a & b & c & Hsp & Hs & Ha & Hb).
      exists a, b, c. split; [exact Hsp |]. split; [now symmetry |]. split.
      * intros _ _. split; [exact Hb |].
        intros before after Hocc. rewrite Ha.
        eapply string_find_first; eauto.
      * intros [Hempty | Hnot]; [discriminate |].
        exfalso. apply Hnot. apply string_find_occurs. congruence.
    + exists s, EmptyString, EmptyString.
      split; [reflexivity |]. split; [apply append_nil_r |]. split.
      * intros _ Hocc. exfalso. now apply string_find_None in Hf.
      * reflexivity.
Qed.

Example get_tuple_splits_witness :
  Format.get_tuple "Frost Salts" "salt" = Return ("Frost ", "Salt", "s")%string /\
  "Frost Salts"%string <> EmptyString /\
  occurs_in "salt" (str.tolower "Frost Salts") /\
  str.tolower "Salt" = "salt"%string.
Proof.
  assert (Hne : "Frost Salts"%string <> EmptyString) by discriminate.
  assert (Hocc : occurs_in "salt" (str.tolower "Frost Salts"))
    by (exists "frost "%string, "s"%string; reflexivity).
  destruct (get_tuple_splits "Frost Salts" "salt")
    as (pre & mid & post & Hret & _ & Hfound & _).
  vm_compute in Hret. injection Hret as <- <- <-.
  split; [reflexivity |]. split; [exact Hne |]. split; [exact Hocc |].
  exact (proj1 (Hfound Hne Hocc)).
Defined.

Lemma get_tuple_spells (str highlight : string) :
  exists pre mid post,
    Format.get_tuple str highlight = Return (pre, mid, post) /\
    (pre ++ mid ++ post)%string = str.
Proof.
  unfold Format.get_tuple. destruct str as [| ch rest].
  - now exists EmptyString, EmptyString, EmptyString.
  - set (s := String ch rest).
    destruct (string_find (str.tolower s) highlight) as [k |] eqn:Hf.
    + destruct (split_at_found s highlight k Hf) as (a & b & c & Hsp & Hs & _).
      exists a, b, c. split; [exact Hsp | now symmetry].
    + exists s, EmptyString, EmptyString.
      split; [reflexivity | apply append_nil_r].
Qed.

Lemma get_tuple_loop_first (str : string) (before after : list string)
  (highlight : string) :
  (forall h, In h before -> ~ occurs_in h (str.tolower str)) ->
  occurs_in highlight (str.tolower str) ->
  Format.get_tuple_loop str (before ++ highlight :: after)
  = match string_find (str.tolower str) highlight with
    | Some dPos => Format.split_at str highlight dPos
    | None => Return (str, EmptyString, EmptyString)
    end.
Proof.
  intros Hbefore Hocc. induction before as [| h before IH]; simpl.
  - destruct (string_find (str.tolower str) highlight) eqn:Hf; [reflexivity |].
    now apply string_find_None in Hf.
  - destruct (string_find (str.tolower str) h) eqn:Hf.
    + exfalso. apply (Hbefore h); [now left |].
      apply string_find_occurs. congruence.
    + apply IH. intros h' Hh'. apply Hbefore. now right.
Qed.

Lemma get_tuple_loop_none (str : string) (highlights : list string) :
  (forall h, In h highlights -> ~ occurs_in h (str.tolower str)) ->
  Format.get_tuple_loop str highlights = Return (str, EmptyString, EmptyString).
Proof.
  induction highlights as [| h highlights IH]; simpl; intros Hnone;
    [reflexivity |].
  destruct (string_find (str.tolower str) h) eqn:Hf.
  - exfalso. apply (Hnone h); [now left |].
    apply string_find_occurs. congruence.
  - apply IH. intros h' Hh'. apply Hnone. now right.
Qed.

(** X11: given several highlights, [get_tuple] splits the string around the
    first highlight of the list that its lowered form holds, as the
    one-highlight [get_tuple] does for that highlight, whatever highlights
    come after it; when the lowered string holds none of them the string
    comes back whole.  It never throws, and its pieces always spell the
    string. *)
Theorem get_tuple_list_first_match (str : string) (highlights : list string) :
  (exists pre mid post,
      Format.get_tuple_list str highlights = Return (pre, mid, post) /\
      (pre ++ mid ++ post)%string = str) /\
  (forall before highlight after,
      highlights = before ++ highlight :: after ->
      (forall h, In h before -> ~ occurs_in h (str.tolower str)) ->
      occurs_in highlight (str.tolower str) ->
      Format.get_tuple_list str highlights = Format.get_tuple str highlight) /\
  ((forall h, In h highlights -> ~ occurs_in h (str.tolower str)) ->
   Format.get_tuple_list str highlights
   = Return (str, EmptyString, EmptyString)).
Proof.
  assert (Hfirst : forall before highlight after,
             highlights = before ++ highlight :: after ->
             (forall h, In h before -> ~ occurs_in h (str.tolower str)) ->
             occurs_in highlight (str.tolower str) ->
             Format.get_tuple_list str highlights
             = Format.get_tuple str highlight).
  { intros before highlight after -> Hbefore Hocc.
    unfold Format.get_tuple_list, Format.get_tuple.
    destruct str as [| ch rest]; [reflexivity |].
    now apply get_tuple_loop_first. }
  assert (Hnone : (forall h, In h highlights -> ~ occurs_in h (str.tolower str)) ->
                  Format.get_tuple_list str highlights
                  = Return (str, EmptyString, EmptyString)).
  { intros Hno. unfold Format.get_tuple_list.
    destruct str as [| ch rest]; [reflexivity |].
    now apply get_tuple_loop_none. }
  split; [| split; [exact Hfirst | exact Hnone]].
  (* either some highlight is the first one held, or none is held *)
  assert (Hcases :
            (exists before highlight after,
                highlights = before ++ highlight :: after /\
                (forall h, In h before -> ~ occurs_in h (str.tolower str)) /\
                occurs_in highlight (str.tolower str)) \/
            (forall h, In h highlights -> ~ occurs_in h (str.tolower str))).
  { clear. induction highlights as [| h highlights IH].
    - right. intros h [].
    - destruct (string_find (str.tolower str) h) eqn:Hf.
      + left. exists [], h, highlights. split; [reflexivity |].
        split; [intros h' [] |]. apply string_find_occurs. congruence.
      + apply string_find_None in Hf.
        destruct IH as [(before & hl & after & -> & Hb & Hocc) | Hnone].
        * left. exists (h :: before), hl, after. split; [reflexivity |].
          split; [| exact Hocc].
          intros h' [<- | Hh']; [exact Hf | now apply Hb].
        * right. intros h' [<- | Hh']; [exact Hf | now apply Hnone]. }
  destruct Hcases as [(before & hl & after & Heq & Hb & Hocc) | Hno].
  - rewrite (Hfirst before hl after Heq Hb Hocc).
    apply get_tuple_spells.
  - rewrite (Hnone Hno). exists str, EmptyString, EmptyString.
    split; [reflexivity | apply append_nil_r].
Qed.

Example get_tuple_list_first_match_witness :
  Format.get_tuple_list "Frost Salts" ["fire"; "salt"; "frost"]%string
  = Format.get_tuple "Frost Salts" "salt" /\
  ~ occurs_in "fire" (str.tolower "Frost Salts").
Proof.
  assert (Hfire : ~ occurs_in "fire" (str.tolower "Frost Salts"))
    by (apply string_find_None; reflexivity).
  split; [| exact Hfire].
  destruct (get_tuple_list_first_match "Frost Salts"
              ["fire"; "salt"; "frost"]%string) as (_ & H & _).
  apply (H ["fire"%string] "salt"%string ["frost"%string]); [reflexivity | |].
  - intros h [<- | []]. exact Hfire.
  - exists "frost "%string, "s"%string. reflexivity.
Defined.

(* ================================================================= *)
(** ** Further properties of matching and filtering *)

Section Matching.

Variable fmt : OutputFormat.

Lemma match_partial_iff (a b : string) :
  _flag_exact fmt = false ->
  (OutputFormat_.match_ fmt a b = true <-> occurs_in b a).
Proof.
  intros Hp. unfold OutputFormat_.match_. rewrite Hp. split.
  - intros Hm. apply orb_true_iff in Hm. destruct Hm as [Hm | Hm].
    + apply String.eqb_eq in Hm. subst. apply occurs_in_refl.
    + change (RegistryType.found_in a b = true) in Hm.
      now apply found_in_iff in Hm.
  - intros Hocc. apply orb_true_iff.
    destruct (String.eqb_spec a b) as [Heq | Hne]; [now left |].
    right. change (RegistryType.found_in a b = true).
    apply found_in_iff. split; [exact Hocc |].
    intros ->. destruct Hocc as (pre & post & Hs).
    destruct pre; [| discriminate]. destruct b; [congruence | discriminate].
Qed.

Lemma occurs_in_trans (a b c : string) :
  occurs_in a b -> occurs_in b c -> occurs_in a c.
Proof.
  intros (p1 & q1 & ->) (p2 & q2 & ->).
  exists (p2 ++ p1)%string, (q1 ++ q2)%string.
  clear. induction p2 as [| ch p2 IH]; simpl.
  - induction p1 as [| ch p1 IH1]; simpl; [| congruence].
    induction a as [| ch a IHa]; simpl; congruence.
  - congruence.
Qed.

Lemma occurs_in_length (a b : string) :
  occurs_in a b -> String.length a <= String.length b.
Proof.
  intros (pre & post & ->). rewrite !string_length_app. lia.
Qed.

Lemma first_of_filter {A : Type} (q : A -> bool) (l : list A) :
  match List.find q l with
  | Some x => [x]
  | None => []
  end = firstn 1 (filter q l).
Proof.
  induction l as [| x l IH]; simpl; [reflexivity |].
  destruct (q x); [reflexivity | exact IH].
Qed.

Lemma hd_error_filter {A : Type} (q : A -> bool) (l : list A) :
  hd_error (filter q l) = List.find q l.
Proof.
  induction l as [| x l IH]; simpl; [reflexivity |].
  destruct (q x); [reflexivity | exact IH].
Qed.

End Matching.

(** X12: in partial mode [match] is containment as written, hence an
    order on strings: every string matches itself, a match of a match is a
    match, the empty term matches every candidate, and no term longer than
    the candidate matches.  Whatever matches in exact mode matches in
    partial mode. *)
Theorem match_is_containment (exact partial : OutputFormat)
  (a b c : string) :
  _flag_exact exact = true -> _flag_exact partial = false ->
  OutputFormat_.match_ partial a a = true /\
  (OutputFormat_.match_ partial a b = true ->
   OutputFormat_.match_ partial b c = true ->
   OutputFormat_.match_ partial a c = true) /\
  OutputFormat_.match_ partial a EmptyString = true /\
  (OutputFormat_.match_ partial a b = true ->
   String.length b <= String.length a) /\
  (OutputFormat_.match_ exact a b = true ->
   OutputFormat_.match_ partial a b = true).
Proof.
  intros He Hp. split; [| split; [| split; [| split]]].
  - apply (match_partial_iff partial a a Hp), occurs_in_refl.
  - rewrite !(match_partial_iff partial _ _ Hp). intros Hab Hbc.
    eapply occurs_in_trans; eauto.
  - apply (match_partial_iff partial a EmptyString Hp).
    exists EmptyString, a. reflexivity.
  - rewrite (match_partial_iff partial a b Hp). apply occurs_in_length.
  - unfold OutputFormat_.match_. rewrite He, Hp. intros ->. reflexivity.
Qed.

Example match_is_containment_witness :
  _flag_exact (format_with false true) = true /\
  _flag_exact (format_with false false) = false /\
  OutputFormat_.match_ (format_with false false) "giant's toe" "toe" = true.
Proof.
  split; [reflexivity |]. split; [reflexivity |].
  destruct (match_is_containment (format_with false true)
              (format_with false false) "giant's toe" "s toe" "toe"
              eq_refl eq_refl) as (_ & Htrans & _).
  apply Htrans; reflexivity.
Defined.

(** X13: [get_fx] returns what [vectorize_effects] returns for the same
    format, effects and terms, except with quiet and exact mode both on,
    where it returns only the first effect of it.  Either result keeps
    effects of the array in array order and adds none. *)
Theorem get_fx_within_vectorize_effects (fmt : OutputFormat)
  (arr : list Effect) (terms : list string) :
  Format.get_fx fmt arr terms
  = (if _flag_quiet fmt && _flag_exact fmt
     then firstn 1 (Formatter.vectorize_effects fmt arr terms)
     else Formatter.vectorize_effects fmt arr terms) /\
  (exists keep : Effect -> bool,
      Formatter.vectorize_effects fmt arr terms = filter keep arr) /\
  length (Format.get_fx fmt arr terms) <= length arr.
Proof.
  assert (Hv : Formatter.vectorize_effects fmt arr terms
               = if _flag_quiet fmt then filter (qualifies fmt terms) arr
                 else arr).
  { unfold Formatter.vectorize_effects. now rewrite vectorize_effects_loop. }
  assert (Hg : Format.get_fx fmt arr terms
               = if _flag_quiet fmt && _flag_exact fmt
                 then firstn 1 (Formatter.vectorize_effects fmt arr terms)
                 else Formatter.vectorize_effects fmt arr terms).
  { rewrite Hv. unfold Format.get_fx.
    destruct (_flag_quiet fmt) eqn:Hq; simpl.
    - destruct (_flag_exact fmt) eqn:He.
      + rewrite get_fx_loop_exact by assumption. simpl.
        unfold first_qualifying. apply first_of_filter.
      + now rewrite get_fx_loop_partial.
    - now rewrite get_fx_loop_loud. }
  split; [exact Hg |]. split.
  - rewrite Hv. destruct (_flag_quiet fmt).
    + now exists (qualifies fmt terms).
    + exists (fun _ => true). symmetry. apply forallb_filter_id.
      now apply forallb_forall.
  - rewrite Hg, Hv.
    assert (Hf : length (filter (qualifies fmt terms) arr) <= length arr)
      by apply filter_length_le.
    destruct (_flag_quiet fmt), (_flag_exact fmt); cbn [andb];
      rewrite ?length_firstn; lia.
Qed.

(** X14: two edge cases of quiet mode.  Without any search term nothing is
    emitted, by either function.  In partial mode a term that is the empty
    string makes every effect qualify, so all effects are emitted although
    quiet mode is on. *)
Theorem quiet_mode_edges (fmt : OutputFormat) (arr : list Effect)
  (terms : list string) :
  _flag_quiet fmt = true ->
  (Formatter.vectorize_effects fmt arr [] = [] /\
   Format.get_fx fmt arr [] = []) /\
  (_flag_exact fmt = false -> In EmptyString terms ->
   Formatter.vectorize_effects fmt arr terms = arr /\
   Format.get_fx fmt arr terms = arr).
Proof.
  intros Hq. unfold Formatter.vectorize_effects, Format.get_fx.
  rewrite !vectorize_effects_loop, Hq. simpl. split.
  - assert (Hnone : filter (qualifies fmt []) arr = []).
    { induction arr as [| fx arr IH]; simpl; auto. }
    split; [exact Hnone |].
    destruct (_flag_exact fmt) eqn:He.
    + rewrite get_fx_loop_exact by assumption. simpl.
      unfold first_qualifying. rewrite first_of_filter. now rewrite Hnone.
    + rewrite get_fx_loop_partial by assumption. exact Hnone.
  - intros He Hin.
    assert (Hall : filter (qualifies fmt terms) arr = arr).
    { apply forallb_filter_id. apply forallb_forall. intros fx _.
      unfold qualifies. apply existsb_exists. exists EmptyString.
      split; [exact Hin |]. apply (match_partial_iff fmt _ _ He).
      exists EmptyString, (str.tolower (_name fx)). reflexivity. }
    split; [exact Hall |].
    rewrite get_fx_loop_partial by assumption. exact Hall.
Qed.

Example quiet_mode_edges_witness :
  let arr := [effect_of "Fire Damage" (1 # 1) 1; effect_of "Slow" (1 # 1) 1;
              effect_of "Fear" (1 # 1) 1; effect_of "Frenzy" (1 # 1) 1] in
  _flag_quiet (format_with true false) = true /\
  In EmptyString [EmptyString] /\
  Format.get_fx (format_with true false) arr [EmptyString] = arr.
Proof.
  intros arr. split; [reflexivity |]. split; [now left |].
  destruct (quiet_mode_edges (format_with true false) arr [EmptyString] eq_refl)
    as [_ H].
  exact (proj2 (H eq_refl (or_introl eq_refl))).
Defined.

(** X15: in effect mode the linear search and the structured search agree.
    For a query in lower case and any predicate, the entry that [get]
    finds from the beginning of a registry is the first entry of what
    [find] returns in scope EFFECT, and [get] returns the end exactly when
    [find] returns nothing. *)
Theorem get_is_first_of_find (pred : string -> string -> bool)
  (reg : Container) (name : string) :
  ordered reg -> str.tolower name = name ->
  let r := IngredientCache.get pred reg name 0 true in
  let found := RegistryType.find pred reg name RegistryType.EFFECT in
  nth_error reg r = hd_error found /\
  (r = length reg <-> found = []).
Proof.
  intros Hord Hlow r found.
  assert (Hr : r = index_of (find_test pred name RegistryType.EFFECT) reg).
  { unfold r, IngredientCache.get. now rewrite find_if_from_start. }
  assert (Hfound : found = filter (find_test pred name RegistryType.EFFECT) reg).
  { unfold found. rewrite (find_filter pred reg name _ Hord). now rewrite Hlow. }
  assert (Hnth : nth_error reg r = hd_error found).
  { now rewrite Hr, Hfound, hd_error_filter, nth_error_index_of. }
  split; [exact Hnth |]. split.
  - intros Hend. rewrite Hend in Hnth.
    assert (Hnone : nth_error reg (length reg) = None)
      by (apply nth_error_None; lia).
    rewrite Hnone in Hnth. destruct found; [reflexivity | discriminate].
  - intros Hnil. rewrite Hnil in Hnth. simpl in Hnth.
    apply nth_error_None in Hnth.
    pose proof (index_of_le (find_test pred name RegistryType.EFFECT) reg).
    lia.
Qed.

Example get_is_first_of_find_witness :
  let plain n f :=
    ingredient_of n
      (effect_of f (1 # 1) 5) (effect_of "Frost Resist" (1 # 1) 1)
      (effect_of "Restore Magicka" (1 # 1) 1) (effect_of "Slow" (1 # 1) 1) in
  let reg := [plain "Ash" "Regenerate"; plain "Ember" "Fire Damage";
              plain "Fire Salts" "Fear"]%string in
  let pred := OutputFormat_.match_ (format_with false false) in
  ordered reg /\ str.tolower "fire" = "fire"%string /\
  nth_error reg (IngredientCache.get pred reg "fire" 0 true)
  = Some (plain "Ember"%string "Fire Damage"%string).
Proof.
  intros plain reg pred.
  assert (Hord : ordered reg) by (unfold ordered; simpl; repeat constructor).
  split; [exact Hord |]. split; [reflexivity |].
  destruct (get_is_first_of_find pred reg "fire" Hord eq_refl) as [-> _].
  reflexivity.
Defined.

(** X16: no input vanishes as a whole: the registry built from a list of
    ingredients is empty exactly when the list is, and an entry of the list
    whose name no earlier entry has is itself an entry of the registry. *)
Theorem from_list_keeps_first_entries (l : IngrList) :
  (IngredientCache.empty (IngredientCache.from_list l) = true <-> l = []) /\
  (forall before x after,
      l = before ++ x :: after -> ~ In (_name x) (keys before) ->
      In x (IngredientCache.from_list l)).
Proof.
  unfold IngredientCache.from_list. split.
  - split.
    + intros Hempty. destruct l as [| x l]; [reflexivity |]. exfalso.
      assert (Hin : In (_name x) (keys (fst (IngredientCache.sort (x :: l)))))
        by (apply sort_keys_In; now left).
      destruct (fst (IngredientCache.sort (x :: l))); [destruct Hin |].
      discriminate.
    + intros ->. reflexivity.
  - intros before x after -> Hnot.
    assert (Hfirst : first_with_key (_name x) (before ++ x :: after) = Some x).
    { apply first_with_key_None in Hnot. unfold first_with_key in *.
      clear - Hnot. induction before as [| y before IH]; simpl in *.
      - unfold has_key. now rewrite String.eqb_refl.
      - destruct (has_key (_name x) y); [discriminate | auto]. }
    rewrite <- sort_first_with_key in Hfirst.
    now apply first_with_key_Some in Hfirst.
Qed.

Example from_list_keeps_first_entries_witness :
  let salts m :=
    ingredient_of "Fire Salts"
      (effect_of "Fire Damage" m 5) (effect_of "Frost Resist" (1 # 1) 1)
      (effect_of "Restore Magicka" (1 # 1) 1) (effect_of "Slow" (1 # 1) 1) in
  ~ In (_name (salts (10 # 1)%Q)) (keys []) /\
  In (salts (10 # 1)%Q)
     (IngredientCache.from_list [salts (10 # 1)%Q; salts (20 # 1)%Q]).
Proof.
  intros salts. split; [intros [] |].
  destruct (from_list_keeps_first_entries [salts (10 # 1)%Q; salts (20 # 1)%Q])
    as [_ H].
  apply (H [] (salts (10 # 1)%Q) [salts (20 # 1)%Q]); [reflexivity |].
  intros [].
Defined.
